(** * The selection-state engine of the "Create Project" wizard

    A shallow embedding of the non-rendering logic of
    [apps/web/src/app/new/page.tsx] (component [NewProjectPage]) and the
    properties its specification states about it.

    Conventions of the embedding.
    - A JavaScript string is a [string]: a sequence of 8-bit code units,
      read as the code points U+0000..U+00FF.  On that range the
      built-ins used by the page ([trim], [toLowerCase], [includes], the
      default order of [sort]) are modelled exactly; text outside it is
      not covered.
    - A JavaScript number that the page only uses as an integer (the
      [order] of a pack) is a [Z].
    - [selectedPacks], an object enumerated with [Object.values], is an
      insertion-ordered list of bindings ([JsObject.t]); [answers], an
      object only ever read by key, is the [gmap] of its own keys.
    - React state is a record; the three [useEffect] hooks are run by an
      explicit commit loop ([settle]). *)

From Stdlib Require Import ZArith Ascii Sorted Permutation.
From stdpp Require Import base option list strings gmap.

Local Open Scope Z_scope.

(** ** JavaScript strings *)

Module JsString.

(** [Boolean(s)]: the empty string is the only falsy string. *)
Definition truthy (s : string) : bool :=
  if decide (s = "") then false else true.

(** [a || b] on strings. *)
Definition or_else (a b : string) : string :=
  if truthy a then a else b.

(** [a || b] where [a] may be [undefined]. *)
Definition opt_or_else (a : option string) (b : string) : string :=
  match a with
  | Some s => or_else s b
  | None => b
  end.

Definition code (c : ascii) : N := N_of_ascii c.

(** WhiteSpace and LineTerminator code points below U+0100: TAB, LF,
    VT, FF, CR, SP and NBSP. *)
Definition isWhiteSpace (c : ascii) : bool :=
  let n := code c in
  ((9 <=? n) && (n <=? 13) || (n =? 32) || (n =? 160))%N.

Fixpoint trimStart (s : string) : string :=
  match s with
  | EmptyString => EmptyString
  | String c s' => if isWhiteSpace c then trimStart s' else s
  end.

Fixpoint trimEnd (s : string) : string :=
  match s with
  | EmptyString => EmptyString
  | String c s' =>
      match trimEnd s' with
      | EmptyString => if isWhiteSpace c then EmptyString else String c EmptyString
      | t => String c t
      end
  end.

(** [s.trim()] *)
Definition trim (s : string) : string := trimEnd (trimStart s).

(** Upper-case letters below U+0100: A-Z, and the Latin-1 letters
    U+00C0..U+00DE without the multiplication sign U+00D7.  Each has
    its lower-case form 32 positions further. *)
Definition isUpper (c : ascii) : bool :=
  let n := code c in
  ((65 <=? n) && (n <=? 90) || (192 <=? n) && (n <=? 214)
   || (216 <=? n) && (n <=? 222))%N.

Definition lowerChar (c : ascii) : ascii :=
  if isUpper c then ascii_of_N (code c + 32) else c.

(** [s.toLowerCase()] *)
Fixpoint toLowerCase (s : string) : string :=
  match s with
  | EmptyString => EmptyString
  | String c s' => String (lowerChar c) (toLowerCase s')
  end.

(** [s.startsWith(q)] *)
Fixpoint startsWith (s q : string) {struct q} : bool :=
  match q, s with
  | EmptyString, _ => true
  | String _ _, EmptyString => false
  | String d q', String c s' =>
      if decide (c = d) then startsWith s' q' else false
  end.

(** [s.includes(q)] *)
Fixpoint includes (s q : string) : bool :=
  startsWith s q ||
  match s with
  | EmptyString => false
  | String _ s' => includes s' q
  end.

(** The order [Array.prototype.sort] uses without a comparator: code
    unit by code unit; negative, zero or positive. *)
Definition defaultCompare (a b : string) : Z :=
  match String.compare a b with
  | Lt => -1
  | Eq => 0
  | Gt => 1
  end.

End JsString.

(** ** JavaScript arrays *)

Module JsArray.
Section Sort.
Context {A : Type}.
Variable cmp : A -> A -> Z.

(** [x] was before every element of [l] in the input: it stays before
    the elements it does not compare greater than. *)
Fixpoint insert (x : A) (l : list A) : list A :=
  match l with
  | [] => [x]
  | y :: l' => if cmp x y <=? 0 then x :: l else y :: insert x l'
  end.

(** [[...l].sort(cmp)]: a stable sort.  For a comparator that is a
    consistent order the language fixes the result, and any stable
    sort computes it. *)
Fixpoint sort (l : list A) : list A :=
  match l with
  | [] => []
  | x :: l' => insert x (sort l')
  end.
End Sort.

(** [l.slice(-1)[0]]: the last element, [undefined] for an empty
    array. *)
Definition lastElement {A : Type} (l : list A) : option A := last l.
End JsArray.

(** ** JavaScript objects with string keys, in insertion order

    Keys are kept distinct ([wf]).  The keys of the page are never
    array indices (they contain a slash), so enumeration order is
    insertion order. *)

Module JsObject.
Section Obj.
Context {V : Type}.

Definition t : Type := list (string * V).

Definition empty : t := [].

(** [o[k]] *)
Fixpoint get (k : string) (o : t) : option V :=
  match o with
  | [] => None
  | (k', v) :: o' => if decide (k' = k) then Some v else get k o'
  end.

(** [o[k] = v]: an existing key keeps its place, a new one goes
    last. *)
Fixpoint set (k : string) (v : V) (o : t) : t :=
  match o with
  | [] => [(k, v)]
  | (k', v') :: o' =>
      if decide (k' = k) then (k, v) :: o' else (k', v') :: set k v o'
  end.

(** [delete o[k]] *)
Fixpoint remove (k : string) (o : t) : t :=
  match o with
  | [] => []
  | (k', v') :: o' =>
      if decide (k' = k) then remove k o' else (k', v') :: remove k o'
  end.

(** [Object.keys(o)] and [Object.values(o)] *)
Definition keys (o : t) : list string := map fst o.
Definition values (o : t) : list V := map snd o.

Definition wf (o : t) : Prop := NoDup (keys o).
End Obj.
Arguments t : clear implicits.
End JsObject.

(** ** Types of the page *)

(** The values an answer or a question default can hold. *)
Inductive JsValue : Type :=
  | VBool (b : bool)
  | VString (s : string)
  | VNumber (n : Z)
  | VList (l : list string)
  | VNull.

Inductive QuestionType : Type :=
  QBoolean | QSelect | QMultiselect | QString | QNumber.

(** [q_default = None] is a question whose [default] is [undefined]. *)
Record ScopeQuestion : Type := mkScopeQuestion {
  q_id : string;
  q_prompt : string;
  q_type : QuestionType;
  q_options : list string;
  q_default : option JsValue
}.

(** A missing [scope_questions], [use_cases] or [segments] is read as the
    empty array ([x || []]). *)
Record UseCase : Type := mkUseCase {
  uc_id : string;
  uc_name : string;
  uc_description : string;
  scope_questions : list ScopeQuestion
}.

Record Segment : Type := mkSegment {
  seg_id : string;
  seg_name : string;
  use_cases : list UseCase
}.

Record Industry : Type := mkIndustry {
  ind_id : string;
  ind_name : string;
  ind_segments : list Segment
}.

Record Pack : Type := mkPack {
  pack_domain : string;
  pack_id : string;
  pack_name : option string;
  pack_order : option Z;
  pack_versions : list string;
  pack_source_url : option string
}.

Record LlmModel : Type := mkLlmModel {
  model : string;
  developer : string;
  popularityTier : string;
  mainDriver : string;
  rank : Z
}.

Record SelectedPack : Type := mkSelectedPack {
  sel_domain : string;
  sel_pack_id : string;
  sel_version : string
}.

Inductive DeploymentEnvironment : Type :=
  AWS_Native | GCP_Native | Azure_Native | Custom_Stack.

Inductive PackDomainFilter : Type :=
  FilterAll | FilterGovernance | FilterSafety | FilterSecurity.

(** The [useState] cells of [NewProjectPage].  [deploymentEnvironment] is
    [None] for the empty string. *)
Record State : Type := mkState {
  industries : list Industry;
  packs : list Pack;
  err : option string;
  name : string;
  description : string;
  industryId : string;
  segmentId : string;
  useCaseId : string;
  answers : gmap string JsValue;
  selectedPacks : JsObject.t SelectedPack;
  selectedLlms : list string;
  deploymentEnvironment : option DeploymentEnvironment;
  llmQuery : string;
  packDomainFilter : PackDomainFilter;
  viewerOpen : bool;
  viewerTitle : string;
  viewerUrl : string
}.

(** The state setters the page uses. *)

Definition setErr (v : option string) (st : State) : State :=
  mkState (industries st) (packs st) v (name st) (description st) (industryId
    st) (segmentId st) (useCaseId st) (answers st) (selectedPacks st)
    (selectedLlms st) (deploymentEnvironment st) (llmQuery st)
    (packDomainFilter st) (viewerOpen st) (viewerTitle st) (viewerUrl st).

Definition setIndustryId (v : string) (st : State) : State :=
  mkState (industries st) (packs st) (err st) (name st) (description st) v
    (segmentId st) (useCaseId st) (answers st) (selectedPacks st)
    (selectedLlms st) (deploymentEnvironment st) (llmQuery st)
    (packDomainFilter st) (viewerOpen st) (viewerTitle st) (viewerUrl st).

Definition setSegmentId (v : string) (st : State) : State :=
  mkState (industries st) (packs st) (err st) (name st) (description st)
    (industryId st) v (useCaseId st) (answers st) (selectedPacks st)
    (selectedLlms st) (deploymentEnvironment st) (llmQuery st)
    (packDomainFilter st) (viewerOpen st) (viewerTitle st) (viewerUrl st).

Definition setUseCaseId (v : string) (st : State) : State :=
  mkState (industries st) (packs st) (err st) (name st) (description st)
    (industryId st) (segmentId st) v (answers st) (selectedPacks st)
    (selectedLlms st) (deploymentEnvironment st) (llmQuery st)
    (packDomainFilter st) (viewerOpen st) (viewerTitle st) (viewerUrl st).

Definition setAnswers (v : gmap string JsValue) (st : State) : State :=
  mkState (industries st) (packs st) (err st) (name st) (description st)
    (industryId st) (segmentId st) (useCaseId st) v (selectedPacks st)
    (selectedLlms st) (deploymentEnvironment st) (llmQuery st)
    (packDomainFilter st) (viewerOpen st) (viewerTitle st) (viewerUrl st).

Definition setSelectedPacks (v : JsObject.t SelectedPack) (st : State) : State :=
  mkState (industries st) (packs st) (err st) (name st) (description st)
    (industryId st) (segmentId st) (useCaseId st) (answers st) v
    (selectedLlms st) (deploymentEnvironment st) (llmQuery st)
    (packDomainFilter st) (viewerOpen st) (viewerTitle st) (viewerUrl st).

Definition setSelectedLlms (v : list string) (st : State) : State :=
  mkState (industries st) (packs st) (err st) (name st) (description st)
    (industryId st) (segmentId st) (useCaseId st) (answers st)
    (selectedPacks st) v (deploymentEnvironment st) (llmQuery st)
    (packDomainFilter st) (viewerOpen st) (viewerTitle st) (viewerUrl st).

Definition setDeploymentEnvironment (v : option DeploymentEnvironment) (st : State) : State :=
  mkState (industries st) (packs st) (err st) (name st) (description st)
    (industryId st) (segmentId st) (useCaseId st) (answers st)
    (selectedPacks st) (selectedLlms st) v (llmQuery st) (packDomainFilter
    st) (viewerOpen st) (viewerTitle st) (viewerUrl st).

(** ** [latestVersion] and the pack registry *)

(** [[...versions].sort().slice(-1)[0] || ""] *)
Definition latestVersion (versions : list string) : string :=
  JsString.opt_or_else
    (JsArray.lastElement (JsArray.sort JsString.defaultCompare versions)) "".

(** The key [`${domain}/${pack_id}`]. *)
Definition packKey (domain pack_id : string) : string :=
  domain +:+ "/" +:+ pack_id.

(** The updater [togglePack] hands to [setSelectedPacks].  Every value of
    the registry is an object, hence truthy, and no inherited property
    has a slash in its name: [if (next[k])] tests presence. *)
Definition togglePack (domain pack_id : string) (versions : list string)
    (prev : JsObject.t SelectedPack) : JsObject.t SelectedPack :=
  let k := packKey domain pack_id in
  let next := prev in
  match JsObject.get k next with
  | Some _ => JsObject.remove k next
  | None =>
      JsObject.set k (mkSelectedPack domain pack_id (latestVersion versions)) next
  end.

(** The updater of [setPackVersion]: [{...prev, [k]: {domain, pack_id, version}}] *)
Definition setPackVersion (domain pack_id version : string)
    (prev : JsObject.t SelectedPack) : JsObject.t SelectedPack :=
  JsObject.set (packKey domain pack_id) (mkSelectedPack domain pack_id version) prev.

(** ** Derived values ([useMemo]) *)

(** [industries.find((x) => x.id === industryId)?.segments || []] *)
Definition segments (st : State) : list Segment :=
  match List.find (fun x => bool_decide (ind_id x = industryId st)) (industries st) with
  | Some ind => ind_segments ind
  | None => []
  end.

(** [segments.find((x) => x.id === segmentId)?.use_cases || []] *)
Definition useCases (st : State) : list UseCase :=
  match List.find (fun x => bool_decide (seg_id x = segmentId st)) (segments st) with
  | Some seg => use_cases seg
  | None => []
  end.

(** [useCases.find((x) => x.id === useCaseId)] *)
Definition useCase (st : State) : option UseCase :=
  List.find (fun x => bool_decide (uc_id x = useCaseId st)) (useCases st).

(** ** The effects *)

(** [o[k] = v] on an object literal used as a map, the map being that
    of the object's own keys.  The name [__proto__] is an accessor the
    object inherits: assigning to it adds no key (at most it changes
    what the object inherits, which is no part of the map).  Every other
    name becomes a key.  A computed key in a literal, [{...a, [k]: v}],
    always defines a key: there the plain insertion is right. *)
Definition assign (k : string) (v : JsValue) (o : gmap string JsValue)
    : gmap string JsValue :=
  if decide (k = "__proto__") then o else <[k := v]> o.

(** The loop of the third effect: [defaults[q.id] = q.default] for every
    question whose default is not [undefined], in order. *)
Definition synthesizeDefaults (questions : list ScopeQuestion) : gmap string JsValue :=
  foldl (fun defaults q =>
           match q_default q with
           | Some d => assign (q_id q) d defaults
           | None => defaults
           end) ∅ questions.

(** An effect reads the values of the render it belongs to and queues
    state updates; [pending] is the state with the updates queued so far
    applied. *)

(** Effect on [[industryId]]. *)
Definition industryEffect (pending : State) : State :=
  setAnswers ∅ (setUseCaseId "" (setSegmentId "" pending)).

(** Effect on [[segmentId]]. *)
Definition segmentEffect (pending : State) : State :=
  setAnswers ∅ (setUseCaseId "" pending).

(** Effect on [[useCaseId]]: [if (!useCase) return; ... setAnswers(defaults)]. *)
Definition useCaseEffect (rendered pending : State) : State :=
  match useCase rendered with
  | None => pending
  | Some uc => setAnswers (synthesizeDefaults (scope_questions uc)) pending
  end.

(** The dependency values an effect was last run with. *)
Record Deps : Type := mkDeps {
  dep_industryId : string;
  dep_segmentId : string;
  dep_useCaseId : string
}.

#[global] Instance Deps_eq_dec : EqDecision Deps.
Proof. solve_decision. Defined.

Definition depsOf (st : State) : Deps :=
  mkDeps (industryId st) (segmentId st) (useCaseId st).

Definition depsChanged (last : Deps) (st : State) : bool :=
  negb (bool_decide (dep_industryId last = industryId st)
        && bool_decide (dep_segmentId last = segmentId st)
        && bool_decide (dep_useCaseId last = useCaseId st)).

(** One commit: the effects whose dependency differs from the previous
    render run in the order they are declared, and their queued updates
    give the next state. *)
Definition commit (last : Deps) (rendered : State) : State :=
  let p1 :=
    if decide (dep_industryId last = industryId rendered) then rendered
    else industryEffect rendered in
  let p2 :=
    if decide (dep_segmentId last = segmentId rendered) then p1
    else segmentEffect p1 in
  if decide (dep_useCaseId last = useCaseId rendered) then p2
  else useCaseEffect rendered p2.

(** Render and commit until no effect has anything to do.  [None] is
    React giving up on nested updates. *)
Fixpoint settle (fuel : nat) (last : Deps) (st : State) : option State :=
  if depsChanged last st then
    match fuel with
    | O => None
    | S fuel' => settle fuel' (depsOf st) (commit last st)
    end
  else Some st.

(** React's limit on nested updates. *)
Definition updateDepth : nat := 50.

(** A state update made by an event handler in a state at rest. *)
Definition dispatch (update : State -> State) (st : State) : option State :=
  settle updateDepth (depsOf st) (update st).

(** ** Event handlers *)

(** The selectors' [onChange]: [setIndustryId(e.target.value)],
    [setSegmentId(..)], [setUseCaseId(..)]. *)
Definition setIndustry (id : string) : State -> option State :=
  dispatch (setIndustryId id).

Definition setSegment (id : string) : State -> option State :=
  dispatch (setSegmentId id).

Definition setUseCase (id : string) : State -> option State :=
  dispatch (setUseCaseId id).

(** [setAnswers(a => ({...a, [q.id]: v}))] *)
Definition setAnswer (question_id : string) (v : JsValue) : State -> option State :=
  dispatch (fun st => setAnswers (<[question_id := v]> (answers st)) st).

Definition onTogglePack (domain pack_id : string) (versions : list string)
    : State -> option State :=
  dispatch (fun st => setSelectedPacks (togglePack domain pack_id versions (selectedPacks st)) st).

Definition onSetPackVersion (domain pack_id version : string) : State -> option State :=
  dispatch (fun st => setSelectedPacks (setPackVersion domain pack_id version (selectedPacks st)) st).

(** ** [canCreate] *)

Definition canCreate (st : State) : bool :=
  JsString.truthy (industryId st)
  && JsString.truthy (segmentId st)
  && JsString.truthy (useCaseId st)
  && bool_decide (is_Some (deploymentEnvironment st))
  && (0 <? length (selectedLlms st))%nat
  && (0 <? length (JsObject.values (selectedPacks st)))%nat.

(** ** [packsForDisplay] *)

(** [Number(a.order ?? 9999)] *)
Definition orderOf (p : Pack) : Z := default 9999 (pack_order p).

(** [String(a.name || a.pack_id)] *)
Definition displayName (p : Pack) : string :=
  JsString.opt_or_else (pack_name p) (pack_id p).

(** The comparator of [packsForDisplay].  [localeCompare] is the
    collation of the host. *)
Definition packCompare (localeCompare : string -> string -> Z) (a b : Pack) : Z :=
  if decide (pack_domain a ≠ pack_domain b) then
    localeCompare (pack_domain a) (pack_domain b)
  else
    let ao := orderOf a in
    let bo := orderOf b in
    if decide (ao ≠ bo) then ao - bo
    else localeCompare (displayName a) (displayName b).

Definition packsForDisplay (localeCompare : string -> string -> Z) (packs : list Pack)
    : list Pack :=
  JsArray.sort (packCompare localeCompare) packs.

(** The domain of a filter button other than "all". *)
Definition filterDomain (f : PackDomainFilter) : option string :=
  match f with
  | FilterAll => None
  | FilterGovernance => Some "governance"
  | FilterSafety => Some "safety"
  | FilterSecurity => Some "security"
  end.

Definition filteredPacksForDisplay (localeCompare : string -> string -> Z) (st : State)
    : list Pack :=
  match filterDomain (packDomainFilter st) with
  | None => packsForDisplay localeCompare (packs st)
  | Some d =>
      List.filter (fun p => bool_decide (pack_domain p = d))
        (packsForDisplay localeCompare (packs st))
  end.

(** ** [filteredLlms] *)

Definition llmMatches (q : string) (llm : LlmModel) : bool :=
  JsString.includes (JsString.toLowerCase (model llm)) q
  || JsString.includes (JsString.toLowerCase (developer llm)) q
  || JsString.includes (JsString.toLowerCase (popularityTier llm)) q
  || JsString.includes (JsString.toLowerCase (mainDriver llm)) q.

(** [LLM_CATALOG] is the table of [config/llms]. *)
Definition filteredLlms (LLM_CATALOG : list LlmModel) (llmQuery : string) : list LlmModel :=
  let q := JsString.toLowerCase (JsString.trim llmQuery) in
  if negb (JsString.truthy q) then LLM_CATALOG
  else List.filter (llmMatches q) LLM_CATALOG.

(** ** [onCreate] *)

Record Payload : Type := mkPayload {
  p_name : string;
  p_description : option string;
  p_industry_id : string;
  p_segment_id : string;
  p_use_case_id : string;
  p_scope_answers : gmap string JsValue;
  p_deployment_environment : option DeploymentEnvironment;
  p_selected_llms : list string;
  p_selected_packs : list SelectedPack
}.

(** What a rejected call is caught with: [e.message] and [String(e)]. *)
Record JsError : Type := mkJsError {
  message : option string;
  stringForm : string
}.

Record CreateResponse : Type := mkCreateResponse {
  project_id : string
}.

Definition buildPayload (st : State) : Payload :=
  {| p_name := name st;
     p_description :=
       if JsString.truthy (description st) then Some (description st) else None;
     p_industry_id := industryId st;
     p_segment_id := segmentId st;
     p_use_case_id := useCaseId st;
     p_scope_answers := answers st;
     p_deployment_environment := deploymentEnvironment st;
     p_selected_llms := selectedLlms st;
     p_selected_packs := JsObject.values (selectedPacks st) |}.

(** [e.message || String(e)] *)
Definition errorText (e : JsError) : string :=
  JsString.opt_or_else (message e) (stringForm e).

(** [onCreate], for a call to [createProject] that settles: the state
    the page is left in, and the address it navigates to if any. *)
Definition onCreate (createProject : Payload -> JsError + CreateResponse) (st : State)
    : option State * option string :=
  match createProject (buildPayload st) with
  | inr res =>
      (dispatch (setErr None) st, Some ("/projects/" +:+ project_id res))
  | inl e =>
      (dispatch (setErr None) st ≫= dispatch (setErr (Some (errorText e))), None)
  end.

(** ** The rest of the page

    The remaining state setters. *)

Definition setIndustries (v : list Industry) (st : State) : State :=
  mkState v (packs st) (err st) (name st) (description st) (industryId st)
    (segmentId st) (useCaseId st) (answers st) (selectedPacks st)
    (selectedLlms st) (deploymentEnvironment st) (llmQuery st)
    (packDomainFilter st) (viewerOpen st) (viewerTitle st) (viewerUrl st).

Definition setPacks (v : list Pack) (st : State) : State :=
  mkState (industries st) v (err st) (name st) (description st) (industryId st)
    (segmentId st) (useCaseId st) (answers st) (selectedPacks st)
    (selectedLlms st) (deploymentEnvironment st) (llmQuery st)
    (packDomainFilter st) (viewerOpen st) (viewerTitle st) (viewerUrl st).

Definition setName (v : string) (st : State) : State :=
  mkState (industries st) (packs st) (err st) v (description st) (industryId st)
    (segmentId st) (useCaseId st) (answers st) (selectedPacks st)
    (selectedLlms st) (deploymentEnvironment st) (llmQuery st)
    (packDomainFilter st) (viewerOpen st) (viewerTitle st) (viewerUrl st).

Definition setDescription (v : string) (st : State) : State :=
  mkState (industries st) (packs st) (err st) (name st) v (industryId st)
    (segmentId st) (useCaseId st) (answers st) (selectedPacks st)
    (selectedLlms st) (deploymentEnvironment st) (llmQuery st)
    (packDomainFilter st) (viewerOpen st) (viewerTitle st) (viewerUrl st).

Definition setLlmQuery (v : string) (st : State) : State :=
  mkState (industries st) (packs st) (err st) (name st) (description st)
    (industryId st) (segmentId st) (useCaseId st) (answers st)
    (selectedPacks st) (selectedLlms st) (deploymentEnvironment st) v
    (packDomainFilter st) (viewerOpen st) (viewerTitle st) (viewerUrl st).

Definition setPackDomainFilter (v : PackDomainFilter) (st : State) : State :=
  mkState (industries st) (packs st) (err st) (name st) (description st)
    (industryId st) (segmentId st) (useCaseId st) (answers st)
    (selectedPacks st) (selectedLlms st) (deploymentEnvironment st)
    (llmQuery st) v (viewerOpen st) (viewerTitle st) (viewerUrl st).

Definition setViewerOpen (v : bool) (st : State) : State :=
  mkState (industries st) (packs st) (err st) (name st) (description st)
    (industryId st) (segmentId st) (useCaseId st) (answers st)
    (selectedPacks st) (selectedLlms st) (deploymentEnvironment st)
    (llmQuery st) (packDomainFilter st) v (viewerTitle st) (viewerUrl st).

Definition setViewerTitle (v : string) (st : State) : State :=
  mkState (industries st) (packs st) (err st) (name st) (description st)
    (industryId st) (segmentId st) (useCaseId st) (answers st)
    (selectedPacks st) (selectedLlms st) (deploymentEnvironment st)
    (llmQuery st) (packDomainFilter st) (viewerOpen st) v (viewerUrl st).

Definition setViewerUrl (v : string) (st : State) : State :=
  mkState (industries st) (packs st) (err st) (name st) (description st)
    (industryId st) (segmentId st) (useCaseId st) (answers st)
    (selectedPacks st) (selectedLlms st) (deploymentEnvironment st)
    (llmQuery st) (packDomainFilter st) (viewerOpen st) (viewerTitle st) v.

(** The [useState] initial values.  The effects that run on mount write
    the values that are already there. *)
Definition initialState : State :=
  {| industries := []; packs := []; err := None;
     name := "My AI System"; description := "";
     industryId := ""; segmentId := ""; useCaseId := "";
     answers := ∅; selectedPacks := []; selectedLlms := [];
     deploymentEnvironment := None;
     llmQuery := ""; packDomainFilter := FilterAll;
     viewerOpen := false; viewerTitle := ""; viewerUrl := "" |}.

(** The mount effect, once both fetches have settled: either both
    catalogs are stored ([i.industries || []], [p.packs || []]) or the
    error text is. *)
Definition onLoad (result : JsError + (option (list Industry) * option (list Pack)))
    : State -> option State :=
  match result with
  | inr (i, p) =>
      dispatch (fun st => setPacks (default [] p) (setIndustries (default [] i) st))
  | inl e => dispatch (setErr (Some (errorText e)))
  end.

(** [packsByDomainCounts].  A domain that is none of the three leaves
    the three counters alone. *)
Record DomainCounts : Type := mkDomainCounts {
  governance : nat;
  safety : nat;
  security : nat
}.

Definition countPack (counts : DomainCounts) (p : Pack) : DomainCounts :=
  if decide (pack_domain p = "governance") then
    mkDomainCounts (governance counts + 1) (safety counts) (security counts)
  else if decide (pack_domain p = "safety") then
    mkDomainCounts (governance counts) (safety counts + 1) (security counts)
  else if decide (pack_domain p = "security") then
    mkDomainCounts (governance counts) (safety counts) (security counts + 1)
  else counts.

Definition packsByDomainCounts (localeCompare : string -> string -> Z) (packs : list Pack)
    : DomainCounts :=
  foldl countPack (mkDomainCounts 0 0 0) (packsForDisplay localeCompare packs).

(** [openStandardViewer]: [if (!url) return;] *)
Definition openStandardViewer (title : string) (url : option string) (st : State)
    : option State :=
  match url with
  | Some u =>
      if JsString.truthy u then
        dispatch (fun s => setViewerOpen true (setViewerUrl u (setViewerTitle title s))) st
      else Some st
  | None => Some st
  end.

Definition closeStandardViewer : State -> option State :=
  dispatch (setViewerOpen false).

(** [onChangeLlms]: the selected options of the list, in list order. *)
Definition onChangeLlms (models : list string) : State -> option State :=
  dispatch (setSelectedLlms models).

(** What the user and the network can do to the page. *)
Inductive Event : Type :=
  | Loaded (result : JsError + (option (list Industry) * option (list Pack)))
  | NameChanged (v : string)
  | DescriptionChanged (v : string)
  | DeploymentChanged (v : option DeploymentEnvironment)
  | IndustryChanged (id : string)
  | SegmentChanged (id : string)
  | UseCaseChanged (id : string)
  | AnswerChanged (question_id : string) (v : JsValue)
  | QueryChanged (v : string)
  | LlmsChanged (models : list string)
  | FilterClicked (f : PackDomainFilter)
  | ViewerOpened (title : string) (url : option string)
  | ViewerClosed
  | PackToggled (domain pack_id : string) (versions : list string)
  | PackVersionChanged (domain pack_id version : string)
  | CreateClicked (outcome : JsError + CreateResponse).

(** The controls that are disabled or not rendered: the segment selector
    without an industry, the use case selector without a segment, the
    questions without a use case, the version selector of a pack that is
    not selected, the button while [canCreate] is false.  The values an
    event carries are not limited to the options the page offers, which
    only adds states. *)
Definition enabled (ev : Event) (st : State) : bool :=
  match ev with
  | SegmentChanged _ => JsString.truthy (industryId st)
  | UseCaseChanged _ => JsString.truthy (segmentId st)
  | AnswerChanged _ _ => bool_decide (is_Some (useCase st))
  | PackVersionChanged domain pack_id _ =>
      bool_decide (is_Some (JsObject.get (packKey domain pack_id) (selectedPacks st)))
  | CreateClicked _ => canCreate st
  | _ => true
  end.

Definition handle (ev : Event) : State -> option State :=
  match ev with
  | Loaded result => onLoad result
  | NameChanged v => dispatch (setName v)
  | DescriptionChanged v => dispatch (setDescription v)
  | DeploymentChanged v => dispatch (setDeploymentEnvironment v)
  | IndustryChanged id => setIndustry id
  | SegmentChanged id => setSegment id
  | UseCaseChanged id => setUseCase id
  | AnswerChanged question_id v => setAnswer question_id v
  | QueryChanged v => dispatch (setLlmQuery v)
  | LlmsChanged models => onChangeLlms models
  | FilterClicked f => dispatch (setPackDomainFilter f)
  | ViewerOpened title url => openStandardViewer title url
  | ViewerClosed => closeStandardViewer
  | PackToggled domain pack_id versions => onTogglePack domain pack_id versions
  | PackVersionChanged domain pack_id version => onSetPackVersion domain pack_id version
  | CreateClicked outcome => fun st => fst (onCreate (fun _ => outcome) st)
  end.

(** The states a session can be in. *)
Inductive Reachable : State -> Prop :=
  | Reachable_init : Reachable initialState
  | Reachable_step st ev st' :
      Reachable st -> enabled ev st = true -> handle ev st = Some st' ->
      Reachable st'.

(** The key under which an entry of the registry belongs. *)
Definition keyOf (sp : SelectedPack) : string :=
  packKey (sel_domain sp) (sel_pack_id sp).

(** Every entry sits under its own key, and no key occurs twice. *)
Definition registryOk (reg : JsObject.t SelectedPack) : Prop :=
  JsObject.wf reg /\ forall k sp, In (k, sp) reg -> k = keyOf sp.

(** What holds of every state of a session: nothing is selected below
    an empty selection, the registry is well keyed, and an open viewer
    has an address. *)
Record SessionInvariant (st : State) : Prop := {
  inv_segment : industryId st = "" -> segmentId st = "";
  inv_useCase : segmentId st = "" -> useCaseId st = "";
  inv_registry : registryOk (selectedPacks st);
  inv_viewer : viewerOpen st = true -> viewerUrl st <> ""
}.

(** Two packs that no key of the pack order tells apart. *)
Definition sameRank (a b : Pack) : Prop :=
  pack_domain a = pack_domain b /\ orderOf a = orderOf b
  /\ displayName a = displayName b.

#[global] Instance sameRank_dec a b : Decision (sameRank a b).
Proof. unfold sameRank. apply _. Defined.

(** The query as the filter uses it. *)
Definition normalizedQuery (llmQuery : string) : string :=
  JsString.toLowerCase (JsString.trim llmQuery).

(** ** Notions the specification is worded in *)

(** Lexicographic order of strings by code unit: a proper prefix comes
    first, otherwise the first differing code unit decides. *)
Inductive lex_lt : string -> string -> Prop :=
  | lex_lt_prefix c t : lex_lt EmptyString (String c t)
  | lex_lt_head c d s t :
      (JsString.code c < JsString.code d)%N -> lex_lt (String c s) (String d t)
  | lex_lt_tail c s t : lex_lt s t -> lex_lt (String c s) (String c t).

Definition lex_le (s t : string) : Prop := s = t \/ lex_lt s t.

(** [m] is a greatest element of [l]. *)
Definition lex_max (l : list string) (m : string) : Prop :=
  In m l /\ forall v, In v l -> lex_le v m.

(** [q] occurs in [s] as a contiguous run of code units. *)
Definition isSubstringOf (q s : string) : Prop :=
  exists pre post, s = pre +:+ q +:+ post.

(** Only white space. *)
Fixpoint isBlank (s : string) : bool :=
  match s with
  | EmptyString => true
  | String c s' => JsString.isWhiteSpace c && isBlank s'
  end.

(** The order of the pack list, in the words of the specification:
    by domain, then by order (9999 when missing), then by display
    name, each ascending; [localeCompare] decides which string comes
    first. *)
Section PackOrder.
Variable localeCompare : string -> string -> Z.

Definition strBefore (a b : string) : Prop := localeCompare a b < 0.

Definition packLe (a b : Pack) : Prop :=
  strBefore (pack_domain a) (pack_domain b)
  \/ (pack_domain a = pack_domain b
      /\ (orderOf a < orderOf b
          \/ (orderOf a = orderOf b
              /\ (strBefore (displayName a) (displayName b)
                  \/ displayName a = displayName b)))).
End PackOrder.

(** What is assumed of the host's collation: it is a strict total order
    on strings, reported by sign. *)
Record StrictCollation (localeCompare : string -> string -> Z) : Prop := {
  collation_zero : forall a b, localeCompare a b = 0 <-> a = b;
  collation_flip : forall a b, 0 < localeCompare a b <-> localeCompare b a < 0;
  collation_trans : forall a b c,
    localeCompare a b < 0 -> localeCompare b c < 0 -> localeCompare a c < 0
}.

(** The strings [packsForDisplay] hands to [localeCompare]. *)
Definition packStrings (packs : list Pack) : list string :=
  flat_map (fun p => [pack_domain p; displayName p]) packs.

(** The collation is a strict total order on the strings of [l],
    reported by sign; nothing is asked of other strings. *)
Record StrictOn (localeCompare : string -> string -> Z) (l : list string) : Prop := {
  on_zero : forall a b, In a l -> In b l -> (localeCompare a b = 0 <-> a = b);
  on_flip : forall a b,
    In a l -> In b l -> (0 < localeCompare a b <-> localeCompare b a < 0);
  on_trans : forall a b c,
    In a l -> In b l -> In c l ->
    localeCompare a b < 0 -> localeCompare b c < 0 -> localeCompare a c < 0
}.

(** [StrictOn], as a test. *)
Definition strictOnb (localeCompare : string -> string -> Z) (l : list string) : bool :=
  forallb (fun a =>
    forallb (fun b =>
      Bool.eqb (localeCompare a b =? 0) (bool_decide (a = b))
      && Bool.eqb (0 <? localeCompare a b) (localeCompare b a <? 0)
      && forallb (fun c =>
           implb ((localeCompare a b <? 0) && (localeCompare b c <? 0))
             (localeCompare a c <? 0)) l) l) l.

(** A collation shaped like the host's, for the samples.  On words of
    unaccented Latin letters the host orders alphabetically whatever the
    case, puts a lower-case letter before its upper-case form when
    nothing else differs, and ignores control and formatting characters
    such as the soft hyphen U+00AD. *)
Definition softHyphen : ascii := ascii_of_N 173.

Definition isIgnorable (c : ascii) : bool :=
  let n := JsString.code c in
  ((n <? 9) || (14 <=? n) && (n <=? 31) || (127 <=? n) && (n <=? 159) || (n =? 173))%N.

Fixpoint dropIgnorable (s : string) : string :=
  match s with
  | EmptyString => EmptyString
  | String c s' => if isIgnorable c then dropIgnorable s' else String c (dropIgnorable s')
  end.

Definition hostLikeCompare (a b : string) : Z :=
  let a' := dropIgnorable a in
  let b' := dropIgnorable b in
  match String.compare (JsString.toLowerCase a') (JsString.toLowerCase b') with
  | Lt => -1
  | Gt => 1
  | Eq => JsString.defaultCompare b' a'
  end.

(** A model matches a query that occurs in one of its four searched
    fields, lower-cased. *)
Definition matchesQuery (q : string) (llm : LlmModel) : Prop :=
  isSubstringOf q (JsString.toLowerCase (model llm))
  \/ isSubstringOf q (JsString.toLowerCase (developer llm))
  \/ isSubstringOf q (JsString.toLowerCase (popularityTier llm))
  \/ isSubstringOf q (JsString.toLowerCase (mainDriver llm)).

(** ** Sample data *)

Definition pinnedOld : JsObject.t SelectedPack :=
  [("security/p1", mkSelectedPack "security" "p1" "1")].

Definition sampleQuestions : list ScopeQuestion :=
  [ mkScopeQuestion "a" "Handles personal data?" QBoolean [] (Some (VBool true));
    mkScopeQuestion "b" "Audience" QSelect ["x"; "y"] None ].

Definition sampleCatalog : list Industry :=
  [ mkIndustry "finance" "Finance"
      [ mkSegment "retail" "Retail banking"
          [ mkUseCase "chatbot" "Support chatbot" "" sampleQuestions;
            mkUseCase "scoring" "Credit scoring" "" [] ] ];
    mkIndustry "health" "Healthcare" [] ].

(** A session with a use case chosen and its default answer in place. *)
Definition sampleState : State :=
  {| industries := sampleCatalog; packs := []; err := None;
     name := "My AI System"; description := "";
     industryId := "finance"; segmentId := "retail"; useCaseId := "chatbot";
     answers := {[ "a" := VBool true ]};
     selectedPacks := []; selectedLlms := ["GPT-X"];
     deploymentEnvironment := Some AWS_Native;
     llmQuery := ""; packDomainFilter := FilterAll;
     viewerOpen := false; viewerTitle := ""; viewerUrl := "" |}.

(** The empty id stands for "nothing selected"; a catalog does not use
    it for a segment. *)
Definition segmentIdsNonEmpty (inds : list Industry) : Prop :=
  forall ind seg, In ind inds -> In seg (ind_segments ind) -> seg_id seg <> "".

(** A creation call that is rejected with an [Error]. *)
Definition rejecting (_ : Payload) : JsError + CreateResponse :=
  inl (mkJsError (Some "Request failed: 500") "Error: Request failed: 500").

(** The sample session with nothing missing but a pack. *)
Definition almostReady : State :=
  setSelectedPacks [] sampleState.

Definition packB : Pack := mkPack "safety" "b" (Some "B") (Some 2) [] None.
Definition packA : Pack := mkPack "safety" "a" (Some "A") (Some 1) [] None.
Definition packC : Pack := mkPack "governance" "c" (Some "C") None [] None.

Definition sampleModels : list LlmModel :=
  [ mkLlmModel "GPT-X" "OpenAI" "Very High" "General assistant" 1;
    mkLlmModel "Claude-Y" "Anthropic" "Very High" "Long documents" 2 ].

(** The initial session with the viewer opened on a standard. *)
Definition viewingState : State :=
  setViewerOpen true
    (setViewerUrl "https://example.org/standard"
       (setViewerTitle "Standard" initialState)).

(** A pack whose domain is capitalised, and two packs whose domains
    differ by a soft hyphen only. *)
Definition packCapital : Pack := mkPack "Safety" "s" (Some "S") None [] None.
Definition packPlain : Pack := mkPack "safety" "x" (Some "X") (Some 2) [] None.
Definition packHyphen : Pack :=
  mkPack ("saf" +:+ String softHyphen "ety") "y" (Some "Y") (Some 1) [] None.

(** A second pack that ranks with [packA]. *)
Definition packA2 : Pack := mkPack "safety" "a2" (Some "A") (Some 1) ["2"] None.


(** A creation call that succeeds. *)
Definition accepting (_ : Payload) : JsError + CreateResponse :=
  inr (mkCreateResponse "42").

(** The sample session, ready for submission. *)
Definition readyState : State :=
  setSelectedPacks [("security/p1", mkSelectedPack "security" "p1" "9")] sampleState.

(** The same with a second pack selected. *)
Definition twoPackState : State :=
  setSelectedPacks
    [ ("security/p1", mkSelectedPack "security" "p1" "9");
      ("safety/p2", mkSelectedPack "safety" "p2" "1.0") ] sampleState.

(** ** Theorems *)

(** *** The default string order *)

Lemma ascii_compare_Lt c d :
  Ascii.compare c d = Lt <-> (JsString.code c < JsString.code d)%N.
Proof. unfold Ascii.compare, JsString.code. apply N.compare_lt_iff. Qed.

Lemma ascii_compare_refl c : Ascii.compare c c = Eq.
Proof. unfold Ascii.compare. apply N.compare_refl. Qed.

Lemma string_compare_refl s : String.compare s s = Eq.
Proof. induction s as [|c s IH]; simpl; [done|]. by rewrite ascii_compare_refl. Qed.

Lemma string_compare_Eq s t : String.compare s t = Eq <-> s = t.
Proof.
  split; [apply String.compare_eq_iff|]. intros ->. apply string_compare_refl.
Qed.

Lemma string_compare_Lt s t : String.compare s t = Lt <-> lex_lt s t.
Proof.
  revert t. induction s as [|c s IH]; intros [|d t]; simpl.
  - split; [done|inversion 1].
  - split; [constructor|done].
  - split; [done|inversion 1].
  - destruct (Ascii.compare c d) eqn:Hcd.
    + apply Ascii.compare_eq_iff in Hcd as ->. rewrite IH. split.
      * by constructor.
      * inversion 1; subst; [lia|done].
    + split; [intros _|done]. constructor. by apply ascii_compare_Lt.
    + split; [done|]. unfold Ascii.compare in Hcd.
      apply N.compare_gt_iff in Hcd. unfold JsString.code.
      inversion 1; subst; unfold JsString.code in *; lia.
Qed.

Lemma string_compare_Gt s t : String.compare s t = Gt <-> lex_lt t s.
Proof.
  rewrite <- string_compare_Lt, (String.compare_antisym t s).
  destruct (String.compare s t); simpl; split; congruence.
Qed.

Lemma lex_lt_trans s t u : lex_lt s t -> lex_lt t u -> lex_lt s u.
Proof.
  intros Hst. revert u.
  induction Hst as [c t|c d s t Hcd|c s t Hst IH]; intros u Htu; inversion Htu; subst;
    first [ apply lex_lt_prefix
          | apply lex_lt_head; lia
          | apply lex_lt_tail; by apply IH ].
Qed.

Lemma lex_lt_irrefl s : ~ lex_lt s s.
Proof. rewrite <- string_compare_Lt, string_compare_refl. done. Qed.

Lemma defaultCompare_le s t : JsString.defaultCompare s t <= 0 <-> lex_le s t.
Proof.
  unfold JsString.defaultCompare, lex_le.
  destruct (String.compare s t) eqn:H.
  - apply string_compare_Eq in H. split; [by left|lia].
  - apply string_compare_Lt in H. split; [by right|lia].
  - apply string_compare_Gt in H. split; [lia|].
    intros [->|H']; exfalso.
    + by apply (lex_lt_irrefl t).
    + apply (lex_lt_irrefl s). by apply (lex_lt_trans s t s).
Qed.

Lemma defaultCompare_lt s t : JsString.defaultCompare s t < 0 <-> lex_lt s t.
Proof.
  unfold JsString.defaultCompare. rewrite <- string_compare_Lt.
  destruct (String.compare s t); split; (done || lia).
Qed.

Lemma defaultCompare_zero s t : JsString.defaultCompare s t = 0 <-> s = t.
Proof.
  unfold JsString.defaultCompare. rewrite <- string_compare_Eq.
  destruct (String.compare s t); split; (done || lia).
Qed.

Lemma defaultCompare_gt s t :
  0 < JsString.defaultCompare s t <-> JsString.defaultCompare t s < 0.
Proof.
  unfold JsString.defaultCompare. rewrite (String.compare_antisym t s).
  destruct (String.compare s t); simpl; split; (done || lia).
Qed.

Lemma lex_le_trans s t u : lex_le s t -> lex_le t u -> lex_le s u.
Proof.
  intros [->|Hst] [->|Htu]; unfold lex_le; eauto using lex_lt_trans.
Qed.

Lemma lex_le_total s t : lex_le s t \/ lex_le t s.
Proof.
  unfold lex_le. destruct (String.compare s t) eqn:H.
  - apply string_compare_Eq in H. auto.
  - apply string_compare_Lt in H. auto.
  - apply string_compare_Gt in H. auto.
Qed.

Lemma defaultCompare_total s t :
  JsString.defaultCompare s t <= 0 \/ JsString.defaultCompare t s <= 0.
Proof. rewrite !defaultCompare_le. apply lex_le_total. Qed.

Lemma defaultCompare_trans s t u :
  JsString.defaultCompare s t <= 0 -> JsString.defaultCompare t u <= 0 ->
  JsString.defaultCompare s u <= 0.
Proof. rewrite !defaultCompare_le. apply lex_le_trans. Qed.

(** *** Sorting *)

Section SortFacts.
Context {A : Type} (cmp : A -> A -> Z).

Let le (a b : A) : Prop := cmp a b <= 0.

Lemma insert_Permutation x l : Permutation (JsArray.insert cmp x l) (x :: l).
Proof.
  induction l as [|y l IH]; simpl; [done|].
  destruct (cmp x y <=? 0); [done|].
  rewrite IH. apply perm_swap.
Qed.

Lemma sort_Permutation l : Permutation (JsArray.sort cmp l) l.
Proof.
  induction l as [|x l IH]; simpl; [done|].
  by rewrite insert_Permutation, IH.
Qed.

Hypothesis cmp_total : forall a b, le a b \/ le b a.
Hypothesis cmp_trans : forall a b c, le a b -> le b c -> le a c.

Lemma insert_StronglySorted x l :
  StronglySorted le l -> StronglySorted le (JsArray.insert cmp x l).
Proof.
  induction 1 as [|y l Hl IH Hy]; simpl.
  - repeat constructor.
  - destruct (Z.leb_spec (cmp x y) 0) as [Hxy|Hxy].
    + constructor; [by constructor|]. constructor; [done|].
      eapply Forall_impl; [exact Hy|]. intros z Hz. by apply (cmp_trans x y z).
    + constructor; [done|].
      eapply Permutation_Forall; [symmetry; apply insert_Permutation|].
      constructor; [|done]. destruct (cmp_total x y) as [H|H]; [|done].
      unfold le in H. lia.
Qed.

Lemma sort_StronglySorted l : StronglySorted le (JsArray.sort cmp l).
Proof.
  induction l as [|x l IH]; simpl; [constructor|]. by apply insert_StronglySorted.
Qed.

Lemma StronglySorted_last_greatest l m :
  StronglySorted le l -> last l = Some m -> Forall (fun x => le x m) l.
Proof.
  induction 1 as [|y l Hl IH Hy]; intros Hm; [constructor|].
  destruct l as [|z l].
  - simpl in Hm. injection Hm as ->. constructor; [|constructor].
    by destruct (cmp_total m m).
  - rewrite last_cons_cons in Hm. constructor; [|by apply IH].
    apply last_Some_elem_of in Hm. rewrite Forall_forall in Hy. by apply Hy.
Qed.
End SortFacts.

(** *** Objects *)

Section JsObjectFacts.
Context {V : Type}.
Implicit Types (o : JsObject.t V) (k : string) (v : V).

Lemma get_set_eq k v o : JsObject.get k (JsObject.set k v o) = Some v.
Proof.
  induction o as [|[k' v'] o IH]; simpl; repeat (case_decide; simpl); congruence.
Qed.

Lemma get_set_ne k k' v o :
  k <> k' -> JsObject.get k' (JsObject.set k v o) = JsObject.get k' o.
Proof.
  intros Hne. induction o as [|[k0 v0] o IH]; simpl;
    repeat (case_decide; simpl); congruence.
Qed.

Lemma get_remove_eq k o : JsObject.get k (JsObject.remove k o) = None.
Proof.
  induction o as [|[k' v'] o IH]; simpl; repeat (case_decide; simpl); congruence.
Qed.

Lemma get_remove_ne k k' o :
  k <> k' -> JsObject.get k' (JsObject.remove k o) = JsObject.get k' o.
Proof.
  intros Hne. induction o as [|[k0 v0] o IH]; simpl;
    repeat (case_decide; simpl); congruence.
Qed.

Lemma set_absent k v o :
  JsObject.get k o = None -> JsObject.set k v o = o ++ [(k, v)].
Proof.
  induction o as [|[k' v'] o IH]; simpl; [done|].
  case_decide; [done|]. intros Hg. by rewrite IH.
Qed.

Lemma remove_absent k o : JsObject.get k o = None -> JsObject.remove k o = o.
Proof.
  induction o as [|[k' v'] o IH]; simpl; [done|].
  case_decide; [done|]. intros Hg. by rewrite IH.
Qed.

Lemma remove_set_absent k v o :
  JsObject.get k o = None -> JsObject.remove k (JsObject.set k v o) = o.
Proof.
  induction o as [|[k' v'] o IH]; simpl.
  - by rewrite decide_True.
  - case_decide; [done|]. intros Hg. simpl. rewrite decide_False by done.
    by rewrite IH.
Qed.

Lemma get_None_keys k o : JsObject.get k o = None <-> ~ In k (JsObject.keys o).
Proof.
  induction o as [|[k' v'] o IH]; simpl; [tauto|].
  case_decide; [split; [done|tauto]|]. rewrite IH. tauto.
Qed.

Lemma wf_set k v o : JsObject.wf o -> JsObject.wf (JsObject.set k v o).
Proof.
  unfold JsObject.wf.
  induction o as [|[k' v'] o IH]; simpl; intros Hwf.
  - apply NoDup_cons. split; [apply not_elem_of_nil|constructor].
  - apply NoDup_cons in Hwf as [Hk' Hwf]. case_decide; subst; simpl.
    + by apply NoDup_cons.
    + apply NoDup_cons. split; [|by apply IH].
      rewrite list_elem_of_In in *. change (~ In k' (JsObject.keys (JsObject.set k v o))).
      rewrite <- get_None_keys, get_set_ne by done. by apply get_None_keys.
Qed.

Lemma wf_remove k o : JsObject.wf o -> JsObject.wf (JsObject.remove k o).
Proof.
  unfold JsObject.wf.
  induction o as [|[k' v'] o IH]; simpl; intros Hwf; [done|].
  apply NoDup_cons in Hwf as [Hk' Hwf]. case_decide; subst; simpl; [by apply IH|].
  apply NoDup_cons. split; [|by apply IH].
  rewrite list_elem_of_In in *. change (~ In k' (JsObject.keys (JsObject.remove k o))).
  rewrite <- get_None_keys, get_remove_ne by done. by apply get_None_keys.
Qed.
End JsObjectFacts.

(** *** [latestVersion] *)

Lemma or_else_empty s : JsString.or_else s "" = s.
Proof. unfold JsString.or_else, JsString.truthy. by case_decide. Qed.

Lemma latestVersion_nil : latestVersion [] = "".
Proof. reflexivity. Qed.

Lemma latestVersion_last vs :
  vs <> [] -> last (JsArray.sort JsString.defaultCompare vs) = Some (latestVersion vs).
Proof.
  intros Hvs. unfold latestVersion, JsArray.lastElement.
  destruct (last (JsArray.sort JsString.defaultCompare vs)) as [m|] eqn:Hlast; simpl.
  - by rewrite or_else_empty.
  - apply last_None in Hlast. destruct Hvs.
    apply Permutation_nil. rewrite <- Hlast. apply sort_Permutation.
Qed.

Lemma latestVersion_lex_max vs : vs <> [] -> lex_max vs (latestVersion vs).
Proof.
  intros Hvs. pose proof (latestVersion_last vs Hvs) as Hlast.
  pose proof (sort_Permutation JsString.defaultCompare vs) as Hperm.
  split.
  - apply (Permutation_in _ Hperm), list_elem_of_In. by apply last_Some_elem_of.
  - intros v Hv. apply defaultCompare_le.
    assert (Hall : Forall (fun x => JsString.defaultCompare x (latestVersion vs) <= 0)
                     (JsArray.sort JsString.defaultCompare vs)).
    { apply (StronglySorted_last_greatest _ defaultCompare_total); [|done].
      apply sort_StronglySorted;
        [apply defaultCompare_total|apply defaultCompare_trans]. }
    rewrite Forall_forall in Hall. apply Hall, list_elem_of_In.
    by apply (Permutation_in _ (Permutation_sym Hperm)).
Qed.

(** *** The pack registry *)

Section Registry.
Implicit Types (reg : JsObject.t SelectedPack) (domain pack_id version : string).

Lemma togglePack_absent domain pack_id versions reg :
  JsObject.get (packKey domain pack_id) reg = None ->
  togglePack domain pack_id versions reg
  = reg ++ [(packKey domain pack_id,
             mkSelectedPack domain pack_id (latestVersion versions))].
Proof. intros H. unfold togglePack. rewrite H. by apply set_absent. Qed.

Lemma togglePack_present domain pack_id versions reg :
  is_Some (JsObject.get (packKey domain pack_id) reg) ->
  togglePack domain pack_id versions reg = JsObject.remove (packKey domain pack_id) reg.
Proof. intros [v H]. unfold togglePack. by rewrite H. Qed.

Lemma togglePack_other domain pack_id versions reg k :
  k <> packKey domain pack_id ->
  JsObject.get k (togglePack domain pack_id versions reg) = JsObject.get k reg.
Proof.
  intros Hk. unfold togglePack.
  destruct (JsObject.get (packKey domain pack_id) reg).
  - by apply get_remove_ne.
  - by apply get_set_ne.
Qed.

Lemma togglePack_wf domain pack_id versions reg :
  JsObject.wf reg -> JsObject.wf (togglePack domain pack_id versions reg).
Proof.
  intros Hwf. unfold togglePack.
  destruct (JsObject.get (packKey domain pack_id) reg).
  - by apply wf_remove.
  - by apply wf_set.
Qed.
End Registry.

(** C1, as stated, fails: a pack pinned to version "1" that is toggled
    off and on again with versions ["1"; "2"] comes back pinned to "2". *)
Lemma togglePack_twice_repins :
  JsObject.get "security/p1" pinnedOld = Some (mkSelectedPack "security" "p1" "1")
  /\ JsObject.get "security/p1"
       (togglePack "security" "p1" ["1"; "2"]
          (togglePack "security" "p1" ["1"; "2"] pinnedOld))
     = Some (mkSelectedPack "security" "p1" "2")
  /\ togglePack "security" "p1" ["1"; "2"]
       (togglePack "security" "p1" ["1"; "2"] pinnedOld) <> pinnedOld.
Proof. repeat split; done. Qed.

(** C1 (amended): toggling the same (domain, pack_id, versions) twice
    leaves every other key's presence and content unchanged and restores
    the presence of the toggled key.  If the key was absent the registry
    is exactly as before; if it was present it is present again, with an
    entry made anew from the arguments and pinned to the latest of
    [versions]. *)
Theorem togglePack_twice domain pack_id versions (reg : JsObject.t SelectedPack) :
  let k := packKey domain pack_id in
  let reg2 := togglePack domain pack_id versions (togglePack domain pack_id versions reg) in
  (forall k', k' <> k -> JsObject.get k' reg2 = JsObject.get k' reg)
  /\ (is_Some (JsObject.get k reg2) <-> is_Some (JsObject.get k reg))
  /\ (JsObject.get k reg = None -> reg2 = reg)
  /\ (is_Some (JsObject.get k reg) ->
      JsObject.get k reg2
      = Some (mkSelectedPack domain pack_id (latestVersion versions))).
Proof.
  intros k reg2.
  assert (Habsent : JsObject.get k reg = None -> reg2 = reg).
  { intros H. subst reg2 k. unfold togglePack at 2. rewrite H.
    unfold togglePack. rewrite get_set_eq. by apply remove_set_absent. }
  assert (Hpresent : is_Some (JsObject.get k reg) ->
            JsObject.get k reg2
            = Some (mkSelectedPack domain pack_id (latestVersion versions))).
  { intros H. subst reg2 k. rewrite (togglePack_present _ _ _ reg H).
    unfold togglePack. rewrite get_remove_eq. apply get_set_eq. }
  split; [|split; [|split]]; try done.
  - intros k' Hk'. subst reg2. by rewrite !togglePack_other.
  - destruct (JsObject.get k reg) as [v|] eqn:Hk.
    + rewrite Hpresent by eauto. split; eauto.
    + by rewrite Habsent, Hk.
Qed.

Lemma togglePack_twice_witness :
  (JsObject.get (packKey "security" "p1") ([] : JsObject.t SelectedPack) = None ->
   togglePack "security" "p1" ["9"; "10"] (togglePack "security" "p1" ["9"; "10"] []) = [])
  /\ (is_Some (JsObject.get (packKey "security" "p1") pinnedOld) ->
      JsObject.get (packKey "security" "p1")
        (togglePack "security" "p1" ["1"; "2"] (togglePack "security" "p1" ["1"; "2"] pinnedOld))
      = Some (mkSelectedPack "security" "p1" (latestVersion ["1"; "2"]))).
Proof.
  split.
  - apply (togglePack_twice "security" "p1" ["9"; "10"] []).
  - apply (togglePack_twice "security" "p1" ["1"; "2"] pinnedOld).
Defined.

(** C2: a pack toggled into the selection is pinned to the
    lexicographic maximum of the version strings supplied.  For
    ["9"; "10"] that is "9", since "10" comes before "9" code unit by
    code unit. *)
Theorem togglePack_pins_lexicographic_max domain pack_id versions
    (reg : JsObject.t SelectedPack) :
  JsObject.get (packKey domain pack_id) reg = None ->
  JsObject.get (packKey domain pack_id) (togglePack domain pack_id versions reg)
  = Some (mkSelectedPack domain pack_id (latestVersion versions))
  /\ (versions <> [] -> lex_max versions (latestVersion versions))
  /\ (JsObject.get "security/p1" reg = None ->
      JsObject.get "security/p1" (togglePack "security" "p1" ["9"; "10"] reg)
      = Some (mkSelectedPack "security" "p1" "9"))
  /\ lex_lt "10" "9".
Proof.
  intros Hk. split; [|split; [|split]].
  - rewrite togglePack_absent by done.
    rewrite <- (set_absent _ _ _ Hk). apply get_set_eq.
  - apply latestVersion_lex_max.
  - intros H. rewrite (togglePack_absent "security" "p1") by done.
    rewrite <- (set_absent _ _ _ H). apply get_set_eq.
  - apply lex_lt_head. unfold JsString.code. simpl. lia.
Qed.

Lemma togglePack_pins_lexicographic_max_witness :
  JsObject.get "security/p1" (togglePack "security" "p1" ["9"; "10"] [])
  = Some (mkSelectedPack "security" "p1" "9")
  /\ lex_max ["9"; "10"] "9".
Proof.
  destruct (togglePack_pins_lexicographic_max "security" "p1" ["9"; "10"] [] eq_refl)
    as (H1 & H2 & _).
  split; [exact H1|]. apply H2. discriminate.
Defined.

(** C9: [setPackVersion] on a key that is not in the registry adds the
    entry {domain, pack_id, version} (as the last one) and leaves every
    other key as it was. *)
Theorem setPackVersion_inserts_absent domain pack_id version
    (reg : JsObject.t SelectedPack) :
  JsObject.get (packKey domain pack_id) reg = None ->
  JsObject.get (packKey domain pack_id) (setPackVersion domain pack_id version reg)
  = Some (mkSelectedPack domain pack_id version)
  /\ setPackVersion domain pack_id version reg
     = reg ++ [(packKey domain pack_id, mkSelectedPack domain pack_id version)]
  /\ setPackVersion domain pack_id version reg <> reg
  /\ (forall k', k' <> packKey domain pack_id ->
        JsObject.get k' (setPackVersion domain pack_id version reg) = JsObject.get k' reg).
Proof.
  intros Hk. unfold setPackVersion. split; [|split; [|split]].
  - apply get_set_eq.
  - by apply set_absent.
  - intros Heq. rewrite <- Heq, get_set_eq in Hk. done.
  - intros k' Hk'. by apply get_set_ne.
Qed.

Lemma setPackVersion_inserts_absent_witness :
  JsObject.get "safety/p2" (setPackVersion "safety" "p2" "3.1" pinnedOld)
  = Some (mkSelectedPack "safety" "p2" "3.1")
  /\ JsObject.get "security/p1" (setPackVersion "safety" "p2" "3.1" pinnedOld)
     = JsObject.get "security/p1" pinnedOld.
Proof.
  destruct (setPackVersion_inserts_absent "safety" "p2" "3.1" pinnedOld eq_refl)
    as (H1 & _ & _ & H4).
  split; [exact H1|]. apply H4. discriminate.
Defined.

(** C10: toggling in a pack that has no versions succeeds, and the new
    entry is pinned to the empty string. *)
Theorem togglePack_no_versions domain pack_id (reg : JsObject.t SelectedPack) :
  JsObject.get (packKey domain pack_id) reg = None ->
  latestVersion [] = ""
  /\ togglePack domain pack_id [] reg
     = reg ++ [(packKey domain pack_id, mkSelectedPack domain pack_id "")]
  /\ JsObject.get (packKey domain pack_id) (togglePack domain pack_id [] reg)
     = Some (mkSelectedPack domain pack_id "").
Proof.
  intros Hk. split; [done|]. split.
  - by apply togglePack_absent.
  - unfold togglePack. rewrite Hk. apply get_set_eq.
Qed.

Lemma togglePack_no_versions_witness :
  togglePack "safety" "p2" [] pinnedOld
  = pinnedOld ++ [("safety/p2", mkSelectedPack "safety" "p2" "")].
Proof.
  destruct (togglePack_no_versions "safety" "p2" pinnedOld eq_refl) as (_ & H & _).
  exact H.
Defined.

(** *** The commit loop *)

Lemma depsChanged_false last st : depsChanged last st = false <-> last = depsOf st.
Proof.
  unfold depsChanged, depsOf. destruct last as [i g u]; simpl.
  rewrite negb_false_iff, !andb_true_iff, !bool_decide_eq_true.
  split; [intros [[-> ->] ->]; done|]. by intros [= -> -> ->].
Qed.

Lemma settle_rest fuel st : settle fuel (depsOf st) st = Some st.
Proof.
  assert (H : depsChanged (depsOf st) st = false) by by apply depsChanged_false.
  destruct fuel; simpl; by rewrite H.
Qed.

Lemma settle_step fuel last st :
  last <> depsOf st ->
  settle (S fuel) last st = settle fuel (depsOf st) (commit last st).
Proof.
  intros H. simpl. destruct (depsChanged last st) eqn:E; [done|].
  by apply depsChanged_false in E.
Qed.

(** An update that touches none of the three ids runs no effect. *)
Lemma dispatch_no_effect update st :
  depsOf (update st) = depsOf st -> dispatch update st = Some (update st).
Proof. intros H. unfold dispatch. rewrite <- H. apply settle_rest. Qed.

(** What one commit does to the three ids. *)
Lemma commit_industryId last st : industryId (commit last st) = industryId st.
Proof.
  unfold commit, useCaseEffect. repeat case_decide; destruct (useCase st); done.
Qed.

Lemma commit_segmentId last st :
  segmentId (commit last st)
  = if decide (dep_industryId last = industryId st) then segmentId st else "".
Proof.
  unfold commit, useCaseEffect. repeat case_decide; destruct (useCase st); done.
Qed.

Lemma commit_useCaseId last st :
  useCaseId (commit last st)
  = if decide (dep_industryId last = industryId st) then
      if decide (dep_segmentId last = segmentId st) then useCaseId st else ""
    else "".
Proof.
  unfold commit, useCaseEffect. repeat case_decide; destruct (useCase st); done.
Qed.

Lemma commit_twice_deps last st :
  depsOf (commit (depsOf st) (commit last st)) = depsOf (commit last st).
Proof.
  unfold depsOf at 1 3.
  rewrite !commit_industryId, !commit_segmentId, !commit_useCaseId. simpl.
  rewrite !commit_industryId, !commit_segmentId.
  repeat case_decide; congruence.
Qed.

(** The effects come to rest after at most two commits. *)
Lemma settle_total fuel last st : (2 <= fuel)%nat -> is_Some (settle fuel last st).
Proof.
  intros Hfuel. destruct fuel as [|[|fuel]]; [lia|lia|].
  destruct (decide (last = depsOf st)) as [->|Hne]; [rewrite settle_rest; eauto|].
  rewrite settle_step by done.
  destruct (decide (depsOf st = depsOf (commit last st))) as [Heq|Hne'].
  { rewrite Heq, settle_rest. eauto. }
  rewrite settle_step by done.
  rewrite <- commit_twice_deps, settle_rest. eauto.
Qed.

Lemma dispatch_settles update st : is_Some (dispatch update st).
Proof. apply settle_total. unfold updateDepth. lia. Qed.

(** *** [synthesizeDefaults] *)








(** *** The selection hierarchy *)

Lemma useCase_no_segment st :
  segmentIdsNonEmpty (industries st) -> segmentId st = "" -> useCase st = None.
Proof.
  intros Hids Hseg. unfold useCase, useCases, segments.
  destruct (List.find _ (industries st)) as [ind|] eqn:Hind; [|done].
  apply find_some in Hind as [Hind _].
  destruct (List.find _ (ind_segments ind)) as [seg|] eqn:Hfind; [|done].
  apply find_some in Hfind as [Hin Hid]. apply bool_decide_eq_true in Hid.
  destruct (Hids ind seg Hind Hin). congruence.
Qed.

Lemma commit_industry st id :
  id <> industryId st ->
  commit (depsOf st) (setIndustryId id st) = industryEffect (setIndustryId id st).
Proof.
  intros Hid. unfold commit. simpl. repeat case_decide; congruence.
Qed.

(** The state the effects leave after the industry changed to [id]: ids
    cleared, answers those of the (normally absent) use case found for
    the cleared ids. *)
Lemma setIndustry_changed st id :
  id <> industryId st ->
  exists a,
    setIndustry id st
    = Some (setAnswers a (setUseCaseId "" (setSegmentId "" (setIndustryId id st))))
    /\ (a = ∅ \/
        exists uc,
          useCase (setUseCaseId "" (setSegmentId "" (setIndustryId id st))) = Some uc
          /\ a = synthesizeDefaults (scope_questions uc)).
Proof.
  intros Hid. unfold setIndustry, dispatch, updateDepth.
  rewrite settle_step by (unfold depsOf; simpl; congruence).
  rewrite commit_industry by done.
  set (s1 := setIndustryId id st). set (s2 := industryEffect s1).
  destruct (decide (depsOf s1 = depsOf s2)) as [Heq|Hne].
  { rewrite Heq, settle_rest. exists ∅. split; [done|by left]. }
  rewrite settle_step by done.
  set (s3 := commit (depsOf s1) s2).
  assert (Hs3 : exists a, s3 = setAnswers a s2
            /\ (a = ∅ \/ exists uc, useCase s2 = Some uc
                                    /\ a = synthesizeDefaults (scope_questions uc))).
  { subst s3. unfold commit. simpl.
    destruct (decide (id = id)) as [_|]; [|done].
    destruct (decide (segmentId st = "")), (decide (useCaseId st = ""));
      unfold useCaseEffect; try destruct (useCase s2) as [uc|] eqn:Huc;
      first [ exists ∅; split; [reflexivity|by left]
            | exists (synthesizeDefaults (scope_questions uc));
              split; [reflexivity|right; by exists uc] ]. }
  destruct Hs3 as (a & -> & Ha).
  change (depsOf s2) with (depsOf (setAnswers a s2)). rewrite settle_rest.
  exists a. split; [done|]. exact Ha.
Qed.

(** C3, as stated, fails for the id that is already selected: the
    effect has no change to react to, and segment, use case and answers
    stay. *)
Lemma setIndustry_same_id_keeps_selection :
  answers sampleState <> ∅
  /\ useCaseId sampleState <> ""
  /\ setIndustry (industryId sampleState) sampleState = Some sampleState
  /\ segmentId sampleState = "retail"
  /\ answers sampleState !! "a" = Some (VBool true).
Proof.
  split; [|repeat split; done].
  intros H. apply (f_equal (fun m => m !! "a")) in H. done.
Qed.

(** C3 (amended): calling [setIndustry] with an id other than the one
    selected selects it and clears segment_id and use_case_id; no use
    case is then selected (in particular in every catalog whose segment
    ids are non-empty) and the Answers map is reset to empty.  Nothing
    else in the session changes. *)
Theorem setIndustry_cascade (st : State) (id : string) :
  id <> industryId st ->
  exists st',
    setIndustry id st = Some st'
    /\ industryId st' = id
    /\ segmentId st' = ""
    /\ useCaseId st' = ""
    /\ (useCase st' = None -> answers st' = ∅)
    /\ (segmentIdsNonEmpty (industries st) -> useCase st' = None /\ answers st' = ∅)
    /\ selectedPacks st' = selectedPacks st
    /\ selectedLlms st' = selectedLlms st
    /\ deploymentEnvironment st' = deploymentEnvironment st.
Proof.
  intros Hid. destruct (setIndustry_changed st id Hid) as (a & Hst' & Ha).
  eexists. split; [exact Hst'|]. simpl.
  assert (Hnone :
    useCase (setAnswers a (setUseCaseId "" (setSegmentId "" (setIndustryId id st)))) = None ->
    a = ∅).
  { intros Hnone. destruct Ha as [->|(uc & Huc & ->)]; [done|].
    change (useCase (setUseCaseId "" (setSegmentId "" (setIndustryId id st))) = None)
      in Hnone. congruence. }
  repeat split; try done.
  - by apply useCase_no_segment.
  - apply Hnone. by apply useCase_no_segment.
Qed.

Lemma setIndustry_cascade_witness :
  exists st',
    setIndustry "health" sampleState = Some st'
    /\ industryId st' = "health" /\ segmentId st' = "" /\ useCaseId st' = ""
    /\ answers st' = ∅.
Proof.
  assert (Hid : "health" <> industryId sampleState) by discriminate.
  assert (Hids : segmentIdsNonEmpty (industries sampleState)).
  { intros ind seg [<-|[<-|[]]]; simpl; [|tauto]. intros [<-|[]]. discriminate. }
  destruct (setIndustry_cascade sampleState "health" Hid)
    as (st' & H1 & H2 & H3 & H4 & _ & H6 & _).
  exists st'. repeat split; try done. by apply H6.
Defined.

(** *** Default answers *)

Lemma commit_useCase st id :
  id <> useCaseId st ->
  commit (depsOf st) (setUseCaseId id st)
  = useCaseEffect (setUseCaseId id st) (setUseCaseId id st).
Proof.
  intros Hid. unfold commit. simpl. repeat case_decide; congruence.
Qed.




(** *** Readiness *)

Lemma truthy_true s : JsString.truthy s = true <-> s <> "".
Proof. unfold JsString.truthy. case_decide; split; (done || congruence). Qed.

Lemma canCreate_iff st :
  canCreate st = true <->
  industryId st <> "" /\ segmentId st <> "" /\ useCaseId st <> ""
  /\ deploymentEnvironment st <> None
  /\ (1 <= length (selectedLlms st))%nat
  /\ (1 <= length (JsObject.values (selectedPacks st)))%nat.
Proof.
  unfold canCreate.
  rewrite !andb_true_iff, !truthy_true, bool_decide_eq_true, !Nat.ltb_lt.
  rewrite <- not_eq_None_Some. unfold lt. tauto.
Qed.

(** C5: [canCreate] holds exactly when industry, segment, use case and
    deployment environment are chosen, at least one model is selected
    and at least one pack is selected.  With everything but a pack in
    place it is false, and toggling one pack in makes it true. *)
Theorem canCreate_exactly_six_conditions :
  (forall st,
     canCreate st = true <->
     industryId st <> "" /\ segmentId st <> "" /\ useCaseId st <> ""
     /\ deploymentEnvironment st <> None
     /\ (1 <= length (selectedLlms st))%nat
     /\ (1 <= length (JsObject.values (selectedPacks st)))%nat)
  /\ (forall st domain pack_id versions,
        industryId st <> "" -> segmentId st <> "" -> useCaseId st <> "" ->
        deploymentEnvironment st <> None ->
        (1 <= length (selectedLlms st))%nat ->
        selectedPacks st = [] ->
        canCreate st = false
        /\ exists st',
             onTogglePack domain pack_id versions st = Some st'
             /\ length (JsObject.values (selectedPacks st')) = 1%nat
             /\ canCreate st' = true).
Proof.
  split; [apply canCreate_iff|].
  intros st domain pack_id versions Hi Hs Hu Hd Hl Hp. split.
  - apply not_true_iff_false. rewrite canCreate_iff, Hp. simpl. lia.
  - unfold onTogglePack. rewrite dispatch_no_effect by done.
    eexists. split; [done|]. rewrite canCreate_iff. simpl. rewrite Hp. simpl.
    repeat split; (done || lia).
Qed.

Lemma canCreate_exactly_six_conditions_witness :
  canCreate almostReady = false
  /\ exists st',
       onTogglePack "security" "p1" ["9"; "10"] almostReady = Some st'
       /\ length (JsObject.values (selectedPacks st')) = 1%nat
       /\ canCreate st' = true.
Proof.
  apply (proj2 canCreate_exactly_six_conditions almostReady "security" "p1" ["9"; "10"]);
    simpl; (discriminate || lia || reflexivity).
Defined.

(** *** Submission *)

Lemma errorText_cases e :
  (forall m, message e = Some m -> m <> "" -> errorText e = m)
  /\ (message e = None \/ message e = Some "" -> errorText e = stringForm e).
Proof.
  unfold errorText, JsString.opt_or_else, JsString.or_else, JsString.truthy.
  split.
  - intros m -> Hm. by rewrite decide_False.
  - intros [->| ->]; done.
Qed.

(** C8: when the creation call fails, [onCreate] leaves the page where
    it is and records the error text: the failure's message, or its
    string form when it carries no (non-empty) message.  Every other
    part of the state, including the selection, the answers, the models,
    the packs and the deployment environment, is as it was before. *)
Theorem onCreate_failure_only_sets_err
    (createProject : Payload -> JsError + CreateResponse) (st : State) (e : JsError) :
  createProject (buildPayload st) = inl e ->
  exists st',
    onCreate createProject st = (Some st', None)
    /\ st' = setErr (Some (errorText e)) st
    /\ err st' = Some (errorText e)
    /\ (forall m, message e = Some m -> m <> "" -> err st' = Some m)
    /\ (message e = None \/ message e = Some "" -> err st' = Some (stringForm e))
    /\ industryId st' = industryId st
    /\ segmentId st' = segmentId st
    /\ useCaseId st' = useCaseId st
    /\ answers st' = answers st
    /\ selectedLlms st' = selectedLlms st
    /\ selectedPacks st' = selectedPacks st
    /\ deploymentEnvironment st' = deploymentEnvironment st
    /\ name st' = name st /\ description st' = description st
    /\ industries st' = industries st /\ packs st' = packs st
    /\ llmQuery st' = llmQuery st /\ packDomainFilter st' = packDomainFilter st
    /\ viewerOpen st' = viewerOpen st /\ viewerTitle st' = viewerTitle st
    /\ viewerUrl st' = viewerUrl st.
Proof.
  intros Hfail. unfold onCreate. rewrite Hfail.
  rewrite dispatch_no_effect by done. simpl.
  rewrite dispatch_no_effect by done.
  destruct (errorText_cases e) as [Hm Hs].
  eexists. split; [reflexivity|]. simpl.
  split; [done|]. split; [done|]. split.
  { intros m H1 H2. by rewrite (Hm m H1 H2). }
  split.
  { intros H. by rewrite (Hs H). }
  repeat split; done.
Qed.

Lemma onCreate_failure_only_sets_err_witness :
  exists st',
    onCreate rejecting sampleState = (Some st', None)
    /\ err st' = Some "Request failed: 500"
    /\ answers st' = answers sampleState
    /\ selectedPacks st' = selectedPacks sampleState.
Proof.
  destruct (onCreate_failure_only_sets_err rejecting sampleState
              (mkJsError (Some "Request failed: 500") "Error: Request failed: 500")
              eq_refl)
    as (st' & H1 & _ & _ & H4 & _ & _ & _ & _ & H9 & _ & H11 & _).
  exists st'. split; [exact H1|]. split; [|by split].
  by apply H4.
Defined.

(** *** The model filter *)

Lemma append_cons c s t : String c s +:+ t = String c (s +:+ t).
Proof. reflexivity. Qed.

Lemma append_empty t : "" +:+ t = t.
Proof. reflexivity. Qed.

Lemma startsWith_spec s q :
  JsString.startsWith s q = true <-> exists post, s = q +:+ post.
Proof.
  revert s. induction q as [|d q IH]; intros s; simpl.
  - split; [intros _; by exists s|done].
  - setoid_rewrite append_cons. destruct s as [|c s]; simpl.
    + split; [done|]. by intros [post ?].
    + case_decide as Hcd; [subst d|].
      * rewrite IH. split; intros [post Hpost]; exists post; congruence.
      * split; [done|]. intros [post [= ? ?]]. done.
Qed.

Lemma includes_spec s q : JsString.includes s q = true <-> isSubstringOf q s.
Proof.
  unfold isSubstringOf. induction s as [|c s IH]; simpl.
  - rewrite orb_false_r, startsWith_spec. split.
    + intros [post ->]. by exists "", post.
    + intros (pre & post & H). exists post. destruct pre; [done|discriminate].
  - rewrite orb_true_iff, IH, startsWith_spec. split.
    + intros [[post ->]|(pre & post & ->)].
      * by exists "", post.
      * by exists (String c pre), post.
    + intros (pre & post & H). destruct pre as [|c' pre].
      * left. by exists post.
      * right. rewrite append_cons in H. injection H as -> ->. by exists pre, post.
Qed.

Lemma includes_empty s : JsString.includes s "" = true.
Proof. destruct s; reflexivity. Qed.

Lemma llmMatches_spec q llm : llmMatches q llm = true <-> matchesQuery q llm.
Proof.
  unfold llmMatches, matchesQuery. rewrite !orb_true_iff, !includes_spec. tauto.
Qed.

Lemma trimStart_blank s : isBlank s = true -> JsString.trimStart s = "".
Proof.
  induction s as [|c s IH]; simpl; [done|].
  intros [Hc Hs]%andb_true_iff. rewrite Hc. by apply IH.
Qed.

Lemma trim_blank s : isBlank s = true -> JsString.trim s = "".
Proof. intros H. unfold JsString.trim. by rewrite trimStart_blank. Qed.

Lemma filter_all_true {A} (f : A -> bool) l :
  (forall x, f x = true) -> List.filter f l = l.
Proof.
  intros Hf. induction l as [|x l IH]; simpl; [done|]. by rewrite Hf, IH.
Qed.

Lemma filter_sublist {A} (f : A -> bool) l : sublist (List.filter f l) l.
Proof.
  induction l as [|x l IH]; simpl; [done|].
  destruct (f x); by constructor.
Qed.

(** C7: the model filter keeps, in catalog order, exactly the entries
    one of whose four lower-cased fields contains the trimmed and
    lower-cased query; a query that is empty or only white space gives
    back the whole catalog. *)
Theorem filteredLlms_spec (LLM_CATALOG : list LlmModel) (llmQuery : string) :
  let q := JsString.toLowerCase (JsString.trim llmQuery) in
  filteredLlms LLM_CATALOG llmQuery = List.filter (llmMatches q) LLM_CATALOG
  /\ (forall llm, llmMatches q llm = true <-> matchesQuery q llm)
  /\ sublist (filteredLlms LLM_CATALOG llmQuery) LLM_CATALOG
  /\ (forall llm, In llm (filteredLlms LLM_CATALOG llmQuery)
                  <-> In llm LLM_CATALOG /\ matchesQuery q llm)
  /\ (isBlank llmQuery = true -> filteredLlms LLM_CATALOG llmQuery = LLM_CATALOG).
Proof.
  intros q.
  assert (Heq : filteredLlms LLM_CATALOG llmQuery = List.filter (llmMatches q) LLM_CATALOG).
  { unfold filteredLlms. fold q. unfold JsString.truthy.
    case_decide as Hq; simpl; [|done].
    symmetry. apply filter_all_true. intros llm. unfold llmMatches.
    by rewrite Hq, includes_empty. }
  split; [done|]. split; [apply llmMatches_spec|]. split; [|split].
  - rewrite Heq. apply filter_sublist.
  - intros llm. by rewrite Heq, filter_In, llmMatches_spec.
  - intros Hblank. unfold filteredLlms. by rewrite trim_blank.
Qed.

Lemma filteredLlms_spec_witness :
  filteredLlms sampleModels "  " = sampleModels
  /\ filteredLlms sampleModels " OpenAI "
     = [ mkLlmModel "GPT-X" "OpenAI" "Very High" "General assistant" 1 ].
Proof.
  split.
  - by apply (filteredLlms_spec sampleModels "  ").
  - by rewrite (proj1 (filteredLlms_spec sampleModels " OpenAI ")).
Defined.

(** *** The pack order *)

Lemma defaultCompare_collation : StrictCollation JsString.defaultCompare.
Proof.
  split.
  - apply defaultCompare_zero.
  - apply defaultCompare_gt.
  - intros a b c. rewrite !defaultCompare_lt. apply lex_lt_trans.
Qed.

Section PackSort.
Variable localeCompare : string -> string -> Z.
Hypothesis collation : StrictCollation localeCompare.

Local Abbreviation before := (strBefore localeCompare).

Lemma before_irrefl a : ~ before a a.
Proof.
  unfold strBefore. pose proof (proj2 (collation_zero _ collation a a) eq_refl). lia.
Qed.

Lemma before_trans a b c : before a b -> before b c -> before a c.
Proof. apply (collation_trans _ collation). Qed.

Lemma before_trichotomy a b : before a b \/ a = b \/ before b a.
Proof.
  unfold strBefore.
  pose proof (collation_zero _ collation a b).
  pose proof (collation_flip _ collation a b).
  destruct (Z.lt_trichotomy (localeCompare a b) 0) as [?|[?|?]]; tauto.
Qed.

Lemma before_asym a b : before a b -> ~ before b a.
Proof. intros H1 H2. apply (before_irrefl a). by apply (before_trans a b a). Qed.

(** The comparator orders two packs as the specification words it. *)
Lemma packCompare_le a b :
  packCompare localeCompare a b <= 0 <-> packLe localeCompare a b.
Proof.
  unfold packCompare, packLe.
  pose proof (collation_zero _ collation (pack_domain a) (pack_domain b)) as Hd.
  pose proof (collation_zero _ collation (displayName a) (displayName b)) as Hn.
  unfold strBefore in *. case_decide as Hdom.
  - assert (localeCompare (pack_domain a) (pack_domain b) <> 0) by tauto.
    split; [intros ?; left; lia|]. intros [?|[? _]]; [lia|done].
  - assert (localeCompare (pack_domain a) (pack_domain b) = 0) by tauto.
    simpl. case_decide as Hord.
    + split; [intros ?; right; split; [done|left; lia]|].
      intros [?|[_ [?|[? _]]]]; (done || lia).
    + split.
      * intros ?. right. split; [done|]. right. split; [done|].
        destruct (Z.eq_dec (localeCompare (displayName a) (displayName b)) 0);
          [right; tauto|left; lia].
      * intros [?|[_ [?|[_ [?|Heq]]]]]; try (done || lia).
        apply Hn in Heq. lia.
Qed.

Lemma packLe_total a b : packLe localeCompare a b \/ packLe localeCompare b a.
Proof.
  unfold packLe.
  destruct (before_trichotomy (pack_domain a) (pack_domain b)) as [?|[Hd|?]];
    [tauto| |tauto].
  destruct (before_trichotomy (displayName a) (displayName b)) as [?|[Hn|?]];
    destruct (Z.lt_trichotomy (orderOf a) (orderOf b)) as [?|[?|?]];
    first [ left; right; split; [done|]; first [ by left | right; split; [done|tauto] ]
          | right; right; split; [done|]; first [ by left | right; split; [done|tauto] ] ].
Qed.

Lemma packLe_trans a b c :
  packLe localeCompare a b -> packLe localeCompare b c -> packLe localeCompare a c.
Proof.
  unfold packLe.
  intros [Hab|[Hab Hab']] [Hbc|[Hbc Hbc']].
  - left. by apply (before_trans _ (pack_domain b)).
  - left. by rewrite <- Hbc.
  - left. by rewrite Hab.
  - right. split; [congruence|].
    destruct Hab' as [?|[Ho [Hn|Hn]]], Hbc' as [?|[Ho' [Hn'|Hn']]];
      first [ left; lia
            | right; split; [lia|]; first
                [ left; by apply (before_trans _ (displayName b))
                | left; by rewrite <- Hn'
                | left; by rewrite Hn
                | right; congruence ] ].
Qed.

Lemma packsForDisplay_StronglySorted packs :
  StronglySorted (packLe localeCompare) (packsForDisplay localeCompare packs).
Proof.
  assert (H : StronglySorted (fun a b => packCompare localeCompare a b <= 0)
                (packsForDisplay localeCompare packs)).
  { apply sort_StronglySorted.
    - intros a b. rewrite !packCompare_le. apply packLe_total.
    - intros a b c. rewrite !packCompare_le. apply packLe_trans. }
  induction H as [|p l Hl IH Hp]; constructor; [done|].
  eapply Forall_impl; [exact Hp|]. intros q. apply packCompare_le.
Qed.
End PackSort.

Lemma strictOnb_spec localeCompare l :
  strictOnb localeCompare l = true -> StrictOn localeCompare l.
Proof.
  unfold strictOnb. rewrite forallb_forall. intros Hall.
  assert (Hab : forall a b, In a l -> In b l ->
            Bool.eqb (localeCompare a b =? 0) (bool_decide (a = b)) = true
            /\ Bool.eqb (0 <? localeCompare a b) (localeCompare b a <? 0) = true
            /\ forall c, In c l ->
                 implb ((localeCompare a b <? 0) && (localeCompare b c <? 0))
                   (localeCompare a c <? 0) = true).
  { intros a b Ha Hb. specialize (Hall a Ha). rewrite forallb_forall in Hall.
    specialize (Hall b Hb). apply andb_true_iff in Hall as [Hall Htr].
    apply andb_true_iff in Hall as [Hz Hf]. rewrite forallb_forall in Htr. auto. }
  split.
  - intros a b Ha Hb. destruct (Hab a b Ha Hb) as (Hz%eqb_prop & _ & _).
    rewrite <- Z.eqb_eq, Hz. apply bool_decide_eq_true.
  - intros a b Ha Hb. destruct (Hab a b Ha Hb) as (_ & Hf%eqb_prop & _).
    by rewrite <- !Z.ltb_lt, Hf.
  - intros a b c Ha Hb Hc Hab' Hbc. destruct (Hab a b Ha Hb) as (_ & _ & Htr).
    specialize (Htr c Hc). apply Z.ltb_lt in Hab', Hbc. rewrite Hab', Hbc in Htr.
    by apply Z.ltb_lt.
Qed.

Section SortOn.
Context {A : Type} (cmp : A -> A -> Z) (P : A -> Prop).
Hypothesis cmp_total_on : forall a b, P a -> P b -> cmp a b <= 0 \/ cmp b a <= 0.
Hypothesis cmp_trans_on : forall a b c,
  P a -> P b -> P c -> cmp a b <= 0 -> cmp b c <= 0 -> cmp a c <= 0.

Lemma insert_StronglySorted_on x l :
  P x -> Forall P l ->
  StronglySorted (fun a b => cmp a b <= 0) l ->
  StronglySorted (fun a b => cmp a b <= 0) (JsArray.insert cmp x l).
Proof.
  intros Hx HP Hl. induction Hl as [|y l Hl IH Hy]; simpl.
  - repeat constructor.
  - apply Forall_cons in HP as [HPy HPl].
    destruct (Z.leb_spec (cmp x y) 0) as [Hxy|Hxy].
    + constructor; [by constructor|]. constructor; [done|].
      rewrite Forall_forall in *. intros z Hz.
      apply (cmp_trans_on x y z); auto.
    + constructor; [by apply IH|].
      eapply Permutation_Forall; [symmetry; apply insert_Permutation|].
      constructor; [|done]. destruct (cmp_total_on x y Hx HPy); [lia|done].
Qed.

Lemma sort_StronglySorted_on l :
  Forall P l -> StronglySorted (fun a b => cmp a b <= 0) (JsArray.sort cmp l).
Proof.
  induction 1 as [|x l Hx Hl IH]; simpl; [constructor|].
  apply insert_StronglySorted_on; [done| |done].
  eapply Permutation_Forall; [symmetry; apply sort_Permutation|done].
Qed.
End SortOn.

Section PackSortOn.
Variable localeCompare : string -> string -> Z.
Variable strings : list string.
Hypothesis strict : StrictOn localeCompare strings.

(** A pack whose two strings are among [strings]. *)
Local Abbreviation known :=
  (fun p : Pack => In (pack_domain p) strings /\ In (displayName p) strings).

Lemma before_trichotomy_on a b :
  In a strings -> In b strings ->
  strBefore localeCompare a b \/ a = b \/ strBefore localeCompare b a.
Proof.
  intros Ha Hb. unfold strBefore.
  pose proof (on_zero _ _ strict a b Ha Hb).
  pose proof (on_flip _ _ strict a b Ha Hb).
  destruct (Z.lt_trichotomy (localeCompare a b) 0) as [?|[?|?]]; tauto.
Qed.

Lemma before_irrefl_on a : In a strings -> ~ strBefore localeCompare a a.
Proof.
  intros Ha. unfold strBefore.
  pose proof (proj2 (on_zero _ _ strict a a Ha Ha) eq_refl). lia.
Qed.

Lemma packCompare_le_on a b :
  known a -> known b ->
  packCompare localeCompare a b <= 0 <-> packLe localeCompare a b.
Proof.
  intros [Had Han] [Hbd Hbn]. unfold packCompare, packLe.
  pose proof (on_zero _ _ strict _ _ Had Hbd) as Hd.
  pose proof (on_zero _ _ strict _ _ Han Hbn) as Hn.
  unfold strBefore in *. case_decide as Hdom.
  - assert (localeCompare (pack_domain a) (pack_domain b) <> 0) by tauto.
    split; [intros ?; left; lia|]. intros [?|[? _]]; [lia|done].
  - assert (localeCompare (pack_domain a) (pack_domain b) = 0) by tauto.
    simpl. case_decide as Hord.
    + split; [intros ?; right; split; [done|left; lia]|].
      intros [?|[_ [?|[? _]]]]; (done || lia).
    + split.
      * intros ?. right. split; [done|]. right. split; [done|].
        destruct (Z.eq_dec (localeCompare (displayName a) (displayName b)) 0);
          [right; tauto|left; lia].
      * intros [?|[_ [?|[_ [?|Heq]]]]]; try (done || lia).
        apply Hn in Heq. lia.
Qed.

Lemma packLe_total_on a b :
  known a -> known b -> packLe localeCompare a b \/ packLe localeCompare b a.
Proof.
  intros [Had Han] [Hbd Hbn]. unfold packLe.
  destruct (before_trichotomy_on _ _ Had Hbd) as [?|[Hd|?]]; [tauto| |tauto].
  destruct (before_trichotomy_on _ _ Han Hbn) as [?|[Hn|?]];
    destruct (Z.lt_trichotomy (orderOf a) (orderOf b)) as [?|[?|?]];
    first [ left; right; split; [done|]; first [ by left | right; split; [done|tauto] ]
          | right; right; split; [done|]; first [ by left | right; split; [done|tauto] ] ].
Qed.

Lemma packLe_trans_on a b c :
  known a -> known b -> known c ->
  packLe localeCompare a b -> packLe localeCompare b c -> packLe localeCompare a c.
Proof.
  intros [Had Han] [Hbd Hbn] [Hcd Hcn]. unfold packLe.
  assert (Htr : forall x y z, In x strings -> In y strings -> In z strings ->
            strBefore localeCompare x y -> strBefore localeCompare y z ->
            strBefore localeCompare x z).
  { intros x y z. apply (on_trans _ _ strict). }
  intros [Hab|[Hab Hab']] [Hbc|[Hbc Hbc']].
  - left. by apply (Htr _ (pack_domain b)).
  - left. by rewrite <- Hbc.
  - left. by rewrite Hab.
  - right. split; [congruence|].
    destruct Hab' as [?|[Ho [Hn|Hn]]], Hbc' as [?|[Ho' [Hn'|Hn']]];
      first [ left; lia
            | right; split; [lia|]; first
                [ left; by apply (Htr _ (displayName b))
                | left; by rewrite <- Hn'
                | left; by rewrite Hn
                | right; congruence ] ].
Qed.

Lemma packsForDisplay_StronglySorted_on packs :
  Forall known packs ->
  StronglySorted (packLe localeCompare) (packsForDisplay localeCompare packs).
Proof.
  intros Hknown.
  assert (H : StronglySorted (fun a b => packCompare localeCompare a b <= 0)
                (packsForDisplay localeCompare packs)).
  { apply (sort_StronglySorted_on _ known); [| |done].
    - intros a b Ha Hb. rewrite !packCompare_le_on by done. by apply packLe_total_on.
    - intros a b c Ha Hb Hc. rewrite !packCompare_le_on by done.
      by apply packLe_trans_on. }
  assert (Hk : Forall known (packsForDisplay localeCompare packs)).
  { eapply Permutation_Forall; [symmetry; apply sort_Permutation|done]. }
  induction H as [|p l Hl IH Hp]; constructor.
  - apply IH. by apply Forall_cons in Hk as [_ ?].
  - apply Forall_cons in Hk as [Hkp Hkl]. rewrite Forall_forall in *.
    intros q Hq. apply packCompare_le_on; auto.
Qed.
End PackSortOn.

Lemma packStrings_known packs :
  Forall (fun p => In (pack_domain p) (packStrings packs)
                   /\ In (displayName p) (packStrings packs)) packs.
Proof.
  apply Forall_forall. intros p Hp%list_elem_of_In. unfold packStrings.
  rewrite !in_flat_map. split; exists p; simpl; auto.
Qed.

(** C6, as stated, fails.  The strings are ordered by the host's
    collation, not lexicographically: "governance" collates before
    "Safety", which comes first code unit by code unit, so a pack of
    domain "Safety" is listed after one of domain "governance".  And
    domains that differ while the collation ties them, as by a soft
    hyphen, are not told apart at all: the order of such packs is then
    left as it was, here 2 before 1. *)
Lemma packsForDisplay_not_lexicographic :
  hostLikeCompare "governance" "Safety" < 0
  /\ lex_lt "Safety" "governance"
  /\ packsForDisplay hostLikeCompare [packCapital; packC] = [packC; packCapital]
  /\ lex_lt (pack_domain packCapital) (pack_domain packC)
  /\ pack_domain packPlain <> pack_domain packHyphen
  /\ hostLikeCompare (pack_domain packPlain) (pack_domain packHyphen) = 0
  /\ packsForDisplay hostLikeCompare [packPlain; packHyphen] = [packPlain; packHyphen]
  /\ orderOf packHyphen < orderOf packPlain
  /\ ~ StrictOn hostLikeCompare (packStrings [packPlain; packHyphen]).
Proof.
  assert (Hlex : lex_lt "Safety" "governance").
  { apply lex_lt_head. unfold JsString.code. simpl. lia. }
  repeat split; try done.
  intros [Hzero _ _].
  assert (Heq : pack_domain packPlain = pack_domain packHyphen).
  { apply Hzero; [simpl; tauto|simpl; tauto|reflexivity]. }
  discriminate Heq.
Qed.

(** C6 (amended): [packsForDisplay] rearranges the whole pack list.
    Whenever the host's collation is a strict total order on the domain
    and name strings of the list, the list comes out ascending by
    domain in the order of the collation, then by order (9999 when
    missing), then by name in the order of the collation (pack_id for a
    pack without a name); with "governance" collating before "safety",
    the packs [B; A; C] of the example come out as [C; A; B]. *)
Theorem packsForDisplay_sorted (localeCompare : string -> string -> Z) (packs : list Pack) :
  StrictOn localeCompare (packStrings packs) ->
  Permutation (packsForDisplay localeCompare packs) packs
  /\ StronglySorted (packLe localeCompare) (packsForDisplay localeCompare packs)
  /\ (forall p, orderOf p = default 9999 (pack_order p))
  /\ (forall p, pack_name p = None -> displayName p = pack_id p)
  /\ (forall p n, pack_name p = Some n -> n <> "" -> displayName p = n)
  /\ (packs = [packB; packA; packC] ->
      localeCompare "governance" "safety" < 0 ->
      packsForDisplay localeCompare packs = [packC; packA; packB]).
Proof.
  intros Hstrict. split; [apply sort_Permutation|].
  split.
  { apply (packsForDisplay_StronglySorted_on _ _ Hstrict), packStrings_known. }
  split; [done|]. split; [by intros p Hp; unfold displayName; rewrite Hp|].
  split.
  { intros p n Hp Hn. unfold displayName. rewrite Hp. simpl.
    unfold JsString.or_else, JsString.truthy. by rewrite decide_False. }
  intros -> Hgs.
  apply (on_flip _ _ Hstrict "safety" "governance") in Hgs; [|simpl; tauto..].
  assert (HAC : packCompare localeCompare packA packC = localeCompare "safety" "governance")
    by reflexivity.
  assert (HBC : packCompare localeCompare packB packC = localeCompare "safety" "governance")
    by reflexivity.
  assert (Hleb : (localeCompare "safety" "governance" <=? 0) = false)
    by (apply Z.leb_gt; lia).
  unfold packsForDisplay. simpl. rewrite HAC, Hleb. simpl.
  rewrite HBC, Hleb. reflexivity.
Qed.

Lemma packsForDisplay_sorted_witness :
  Permutation (packsForDisplay hostLikeCompare [packB; packA; packC])
    [packB; packA; packC]
  /\ StronglySorted (packLe hostLikeCompare)
       (packsForDisplay hostLikeCompare [packB; packA; packC])
  /\ packsForDisplay hostLikeCompare [packB; packA; packC] = [packC; packA; packB].
Proof.
  assert (Hstrict : StrictOn hostLikeCompare (packStrings [packB; packA; packC])).
  { apply strictOnb_spec. vm_compute. reflexivity. }
  destruct (packsForDisplay_sorted hostLikeCompare [packB; packA; packC] Hstrict)
    as (H1 & H2 & _ & _ & _ & H6).
  split; [exact H1|]. split; [exact H2|]. apply H6; reflexivity.
Defined.

(** ** Further properties of the page *)

(** *** What the effects can change *)

Lemma state_eta st :
  setAnswers (answers st) (setUseCaseId (useCaseId st) (setSegmentId (segmentId st) st)) = st.
Proof. by destruct st. Qed.

Lemma commit_frame last st :
  exists seg uc a, commit last st = setAnswers a (setUseCaseId uc (setSegmentId seg st)).
Proof.
  unfold commit, useCaseEffect, industryEffect, segmentEffect.
  destruct (useCase st) as [u|]; destruct st; simpl;
    repeat case_decide; eexists _, _, _; reflexivity.
Qed.

Lemma settle_frame fuel last st st' :
  settle fuel last st = Some st' ->
  exists seg uc a, st' = setAnswers a (setUseCaseId uc (setSegmentId seg st)).
Proof.
  revert last st. induction fuel as [|fuel IH]; intros last st; simpl;
    destruct (depsChanged last st); try discriminate.
  - intros [= <-]. eexists _, _, _. symmetry. apply state_eta.
  - intros H. apply IH in H as (seg & uc & a & ->).
    destruct (commit_frame last st) as (seg0 & uc0 & a0 & ->).
    by exists seg, uc, a.
  - intros [= <-]. eexists _, _, _. symmetry. apply state_eta.
Qed.

Lemma dispatch_frame update st st' :
  dispatch update st = Some st' ->
  exists seg uc a, st' = setAnswers a (setUseCaseId uc (setSegmentId seg (update st))).
Proof. unfold dispatch. apply settle_frame. Qed.

(** X3: whatever an event handler updates, the effects come to rest
    within the update limit, and all they change is the segment id, the
    use case id and the answers. *)
Theorem dispatch_settles_within_frame (update : State -> State) (st : State) :
  exists st' seg uc a,
    dispatch update st = Some st'
    /\ st' = setAnswers a (setUseCaseId uc (setSegmentId seg (update st)))
    /\ industryId st' = industryId (update st)
    /\ selectedPacks st' = selectedPacks (update st)
    /\ selectedLlms st' = selectedLlms (update st)
    /\ deploymentEnvironment st' = deploymentEnvironment (update st)
    /\ err st' = err (update st).
Proof.
  destruct (dispatch_settles update st) as [st' Hst'].
  destruct (dispatch_frame _ _ _ Hst') as (seg & uc & a & Heq).
  exists st', seg, uc, a. split; [exact Hst'|]. split; [exact Heq|].
  rewrite Heq. repeat split; reflexivity.
Qed.

(** X2: choosing the value that is already selected, in any of the
    three selectors, changes nothing at all. *)
Theorem reselect_is_noop (st : State) :
  setIndustry (industryId st) st = Some st
  /\ setSegment (segmentId st) st = Some st
  /\ setUseCase (useCaseId st) st = Some st.
Proof.
  unfold setIndustry, setSegment, setUseCase.
  rewrite !dispatch_no_effect by done. by destruct st.
Qed.

Lemma commit_segment st id :
  id <> segmentId st ->
  commit (depsOf st) (setSegmentId id st) = segmentEffect (setSegmentId id st).
Proof.
  intros Hid. unfold commit. simpl. repeat case_decide; congruence.
Qed.

Lemma setSegment_changed st id :
  id <> segmentId st ->
  exists a,
    setSegment id st = Some (setAnswers a (setUseCaseId "" (setSegmentId id st)))
    /\ (a = ∅ \/
        exists uc,
          useCase (setUseCaseId "" (setSegmentId id st)) = Some uc
          /\ a = synthesizeDefaults (scope_questions uc)).
Proof.
  intros Hid. unfold setSegment, dispatch, updateDepth.
  rewrite settle_step by (unfold depsOf; simpl; congruence).
  rewrite commit_segment by done.
  set (s1 := setSegmentId id st). set (s2 := segmentEffect s1).
  destruct (decide (depsOf s1 = depsOf s2)) as [Heq|Hne].
  { rewrite Heq, settle_rest. exists ∅. split; [done|by left]. }
  rewrite settle_step by done.
  assert (Hs3 : exists a, commit (depsOf s1) s2 = setAnswers a s2
            /\ (a = ∅ \/ exists uc, useCase s2 = Some uc
                                    /\ a = synthesizeDefaults (scope_questions uc))).
  { unfold commit. simpl.
    destruct (decide (id = id)) as [_|]; [|done].
    destruct (decide (industryId st = industryId st)) as [_|]; [|done].
    destruct (decide (useCaseId st = ""));
      unfold useCaseEffect; try destruct (useCase s2) as [uc|] eqn:Huc;
      first [ exists ∅; split; [reflexivity|by left]
            | exists (synthesizeDefaults (scope_questions uc));
              split; [reflexivity|right; by exists uc] ]. }
  destruct Hs3 as (a & -> & Ha).
  change (depsOf s2) with (depsOf (setAnswers a s2)). rewrite settle_rest.
  exists a. split; [done|]. exact Ha.
Qed.

(** X1: choosing another segment selects it, clears the use case,
    leaves the industry alone and, no use case of that segment having
    the empty id, empties the answers.  Models, packs and deployment
    environment are not touched. *)
Theorem setSegment_cascade (st : State) (id : string) :
  id <> segmentId st ->
  exists st',
    setSegment id st = Some st'
    /\ industryId st' = industryId st
    /\ segmentId st' = id
    /\ useCaseId st' = ""
    /\ (useCase st' = None -> answers st' = ∅)
    /\ ((forall uc, In uc (useCases st') -> uc_id uc <> "") -> answers st' = ∅)
    /\ selectedPacks st' = selectedPacks st
    /\ selectedLlms st' = selectedLlms st
    /\ deploymentEnvironment st' = deploymentEnvironment st.
Proof.
  intros Hid. destruct (setSegment_changed st id Hid) as (a & Hst' & Ha).
  eexists. split; [exact Hst'|]. simpl.
  assert (Hnone :
    useCase (setAnswers a (setUseCaseId "" (setSegmentId id st))) = None -> a = ∅).
  { intros Hnone. destruct Ha as [->|(uc & Huc & ->)]; [done|].
    change (useCase (setUseCaseId "" (setSegmentId id st)) = None) in Hnone.
    congruence. }
  repeat split; try done.
  intros Hids. apply Hnone. unfold useCase.
  destruct (List.find _ _) as [uc|] eqn:Hfind; [|done].
  apply find_some in Hfind as [Hin Hempty]. apply bool_decide_eq_true in Hempty.
  by destruct (Hids uc Hin).
Qed.

Lemma setSegment_cascade_witness :
  exists st',
    setSegment "" sampleState = Some st'
    /\ industryId st' = "finance" /\ segmentId st' = "" /\ useCaseId st' = ""
    /\ answers st' = ∅.
Proof.
  destruct (setSegment_cascade sampleState "") as (st' & H1 & H2 & H3 & H4 & H5 & _);
    [discriminate|].
  exists st'. repeat split; try done. apply H5.
  vm_compute in H1. injection H1 as <-. reflexivity.
Defined.

(** X7: after the industry or the segment changed, the page is not
    ready for submission, whatever else is selected. *)
Theorem cascade_blocks_submission (st : State) :
  (forall id, id <> industryId st ->
     exists st', setIndustry id st = Some st' /\ canCreate st' = false)
  /\ (forall id, id <> segmentId st ->
        exists st', setSegment id st = Some st' /\ canCreate st' = false).
Proof.
  split; intros id Hid.
  - destruct (setIndustry_changed st id Hid) as (a & -> & _).
    eexists. split; [done|]. unfold canCreate. simpl.
    by rewrite andb_false_r.
  - destruct (setSegment_changed st id Hid) as (a & -> & _).
    eexists. split; [done|]. unfold canCreate. simpl.
    by rewrite andb_false_r.
Qed.

Lemma cascade_blocks_submission_witness :
  exists st', setSegment "" sampleState = Some st' /\ canCreate st' = false.
Proof.
  apply (proj2 (cascade_blocks_submission sampleState) ""). discriminate.
Defined.

(** *** Order and keys of the registry *)

Section JsObjectOrder.
Context {V : Type}.
Implicit Types (o : JsObject.t V) (k : string) (v : V).

Lemma keys_set_present k v o :
  is_Some (JsObject.get k o) -> JsObject.keys (JsObject.set k v o) = JsObject.keys o.
Proof.
  induction o as [|[k' v'] o IH]; simpl; intros Hk; [by destruct Hk|].
  case_decide; simpl; [congruence|]. f_equal. by apply IH.
Qed.

Lemma keys_remove k o :
  JsObject.keys (JsObject.remove k o)
  = List.filter (fun k' => negb (bool_decide (k' = k))) (JsObject.keys o).
Proof.
  induction o as [|[k' v'] o IH]; simpl; [done|].
  case_decide; [rewrite bool_decide_eq_true_2|rewrite bool_decide_eq_false_2];
    simpl; congruence.
Qed.

Lemma values_remove_sublist k o :
  sublist (JsObject.values (JsObject.remove k o)) (JsObject.values o).
Proof.
  induction o as [|[k' v'] o IH]; simpl; [done|].
  case_decide; simpl; by constructor.
Qed.

Lemma In_set k v o kv : In kv (JsObject.set k v o) -> kv = (k, v) \/ In kv o.
Proof.
  induction o as [|[k' v'] o IH]; simpl; [intros [<-|[]]; by left|].
  case_decide; simpl.
  - intros [<-|?]; auto.
  - intros [<-|?]; [auto|]. destruct IH; auto.
Qed.

Lemma In_remove k o kv : In kv (JsObject.remove k o) -> In kv o.
Proof.
  induction o as [|[k' v'] o IH]; simpl; [tauto|].
  case_decide; simpl; tauto.
Qed.

Lemma get_In k v o : JsObject.get k o = Some v -> In (k, v) o.
Proof.
  induction o as [|[k' v'] o IH]; simpl; [done|].
  case_decide; [intros [= <-]; subst; by left|]. intros Hg. right. by apply IH.
Qed.
End JsObjectOrder.

(** X8: a pack toggled in goes last among the selected packs; removing
    one keeps the others in their order; changing the version of a
    selected pack keeps every pack at its place and only replaces that
    entry. *)
Theorem registry_keeps_insertion_order domain pack_id (reg : JsObject.t SelectedPack) :
  let k := packKey domain pack_id in
  (forall versions, JsObject.get k reg = None ->
     JsObject.values (togglePack domain pack_id versions reg)
     = JsObject.values reg ++ [mkSelectedPack domain pack_id (latestVersion versions)])
  /\ (forall versions, is_Some (JsObject.get k reg) ->
        JsObject.keys (togglePack domain pack_id versions reg)
        = List.filter (fun k' => negb (bool_decide (k' = k))) (JsObject.keys reg)
        /\ sublist (JsObject.values (togglePack domain pack_id versions reg))
             (JsObject.values reg))
  /\ (forall version, is_Some (JsObject.get k reg) ->
        JsObject.keys (setPackVersion domain pack_id version reg) = JsObject.keys reg
        /\ JsObject.get k (setPackVersion domain pack_id version reg)
           = Some (mkSelectedPack domain pack_id version)
        /\ forall k', k' <> k ->
             JsObject.get k' (setPackVersion domain pack_id version reg)
             = JsObject.get k' reg).
Proof.
  intros k. split; [|split].
  - intros versions Hk. rewrite togglePack_absent by done.
    unfold JsObject.values. by rewrite map_app.
  - intros versions Hk. rewrite togglePack_present by done.
    split; [apply keys_remove|apply values_remove_sublist].
  - intros version Hk. unfold setPackVersion. split; [by apply keys_set_present|].
    split; [apply get_set_eq|]. intros k' Hk'. by apply get_set_ne.
Qed.

Lemma registry_keeps_insertion_order_witness :
  JsObject.values (togglePack "safety" "p2" ["1"] pinnedOld)
  = JsObject.values pinnedOld ++ [mkSelectedPack "safety" "p2" "1"]
  /\ JsObject.keys (setPackVersion "security" "p1" "7" pinnedOld) = JsObject.keys pinnedOld.
Proof.
  split.
  - by apply (registry_keeps_insertion_order "safety" "p2" pinnedOld).
  - apply (registry_keeps_insertion_order "security" "p1" pinnedOld). by eexists.
Defined.

Lemma togglePack_registryOk domain pack_id versions reg :
  registryOk reg -> registryOk (togglePack domain pack_id versions reg).
Proof.
  intros [Hwf Hkeys]. split; [by apply togglePack_wf|].
  intros k sp. unfold togglePack.
  destruct (JsObject.get (packKey domain pack_id) reg).
  - intros Hin%In_remove. by apply Hkeys.
  - intros [[= -> ->]|Hin]%In_set; [done|by apply Hkeys].
Qed.

Lemma setPackVersion_registryOk domain pack_id version reg :
  registryOk reg -> registryOk (setPackVersion domain pack_id version reg).
Proof.
  intros [Hwf Hkeys]. split; [by apply wf_set|].
  intros k sp [[= -> ->]|Hin]%In_set; [done|by apply Hkeys].
Qed.

Lemma registryOk_values_NoDup reg :
  registryOk reg -> NoDup (map keyOf (JsObject.values reg)).
Proof.
  intros [Hwf Hkeys]. unfold JsObject.wf, JsObject.keys in Hwf.
  assert (Heq : map keyOf (JsObject.values reg) = map fst reg).
  { unfold JsObject.values. rewrite map_map. apply map_ext_in.
    intros [k sp] Hin. simpl. symmetry. by apply Hkeys. }
  by rewrite Heq.
Qed.

(** *** The states of a session *)

Lemma setUseCase_changed st id :
  id <> useCaseId st ->
  exists a, setUseCase id st = Some (setAnswers a (setUseCaseId id st)).
Proof.
  intros Hid. unfold setUseCase, dispatch, updateDepth.
  rewrite settle_step by (unfold depsOf; simpl; congruence).
  rewrite commit_useCase by done. unfold useCaseEffect.
  destruct (useCase (setUseCaseId id st)) as [uc|].
  - change (depsOf (setUseCaseId id st))
      with (depsOf (setAnswers (synthesizeDefaults (scope_questions uc))
                      (setUseCaseId id st))).
    rewrite settle_rest. by eexists.
  - rewrite settle_rest. exists (answers st). by destruct st.
Qed.

Lemma dispatch_same update st : update st = st -> dispatch update st = Some st.
Proof. intros H. rewrite dispatch_no_effect by congruence. congruence. Qed.

Lemma initialState_invariant : SessionInvariant initialState.
Proof.
  split; simpl; try done.
  split; [constructor|]. by intros k sp [].
Qed.

Lemma handle_invariant ev st st' :
  SessionInvariant st -> enabled ev st = true -> handle ev st = Some st' ->
  SessionInvariant st'.
Proof.
  intros [Hseg Huc Hreg Hview].
  destruct ev as [[e|[i p]]| | | |id|id|id| | | | |title [u|]| | | |[e|res]];
    unfold handle, enabled, onLoad, setAnswer, onChangeLlms, closeStandardViewer,
      onTogglePack, onSetPackVersion, openStandardViewer, onCreate, fst.
  all: try (rewrite dispatch_no_effect by done; intros Hen Hst';
            injection Hst' as <-; split; simpl; done).
  - (* industry *)
    intros _. destruct (decide (id = industryId st)) as [->|Hid].
    + unfold setIndustry. rewrite dispatch_same by (by destruct st).
      intros [= <-]. by split.
    + destruct (setIndustry_changed st id Hid) as (a & -> & _).
      intros [= <-]. by split.
  - (* segment *)
    intros Hen%truthy_true.
    destruct (decide (id = segmentId st)) as [->|Hid].
    + unfold setSegment. rewrite dispatch_same by (by destruct st).
      intros [= <-]. by split.
    + destruct (setSegment_changed st id Hid) as (a & -> & _).
      intros [= <-]. by split.
  - (* use case *)
    intros Hen%truthy_true.
    destruct (decide (id = useCaseId st)) as [->|Hid].
    + unfold setUseCase. rewrite dispatch_same by (by destruct st).
      intros [= <-]. by split.
    + destruct (setUseCase_changed st id Hid) as (a & ->).
      intros [= <-]. by split.
  - (* viewer opened with an address *)
    intros _. destruct (JsString.truthy u) eqn:Hu.
    + rewrite dispatch_no_effect by done. intros [= <-].
      split; simpl; try done. intros _. by apply truthy_true.
    + intros [= <-]. by split.
  - (* viewer opened without one *)
    intros _ [= <-]. by split.
  - (* pack toggled *)
    rewrite dispatch_no_effect by done. intros _ [= <-].
    split; simpl; try done. by apply togglePack_registryOk.
  - (* version changed *)
    rewrite dispatch_no_effect by done. intros _ [= <-].
    split; simpl; try done. by apply setPackVersion_registryOk.
  - (* creation failed *)
    rewrite dispatch_no_effect by done. simpl.
    rewrite dispatch_no_effect by done. intros _ [= <-]. by split.
Qed.

Lemma Reachable_invariant st : Reachable st -> SessionInvariant st.
Proof.
  induction 1 as [|st ev st' _ IH Hen Hst'];
    [apply initialState_invariant|by apply (handle_invariant ev st)].
Qed.

(** The sample sessions are states of a session: the catalog loads,
    then the user picks industry, segment, models, deployment
    environment, a pack and the use case, then a second pack. *)
Lemma readyState_Reachable : Reachable readyState.
Proof.
  assert (R1 : Reachable (setIndustries sampleCatalog initialState)).
  { apply (Reachable_step initialState (Loaded (inr (Some sampleCatalog, None))));
      [apply Reachable_init|reflexivity|vm_compute; reflexivity]. }
  assert (R2 : Reachable (setIndustryId "finance" (setIndustries sampleCatalog initialState))).
  { apply (Reachable_step _ (IndustryChanged "finance") _ R1);
      [reflexivity|vm_compute; reflexivity]. }
  assert (R3 : Reachable (setSegmentId "retail"
                 (setIndustryId "finance" (setIndustries sampleCatalog initialState)))).
  { apply (Reachable_step _ (SegmentChanged "retail") _ R2);
      [reflexivity|vm_compute; reflexivity]. }
  assert (R4 : Reachable (setSelectedLlms ["GPT-X"] (setSegmentId "retail"
                 (setIndustryId "finance" (setIndustries sampleCatalog initialState))))).
  { apply (Reachable_step _ (LlmsChanged ["GPT-X"]) _ R3);
      [reflexivity|vm_compute; reflexivity]. }
  assert (R5 : Reachable (setDeploymentEnvironment (Some AWS_Native)
                 (setSelectedLlms ["GPT-X"] (setSegmentId "retail"
                 (setIndustryId "finance" (setIndustries sampleCatalog initialState)))))).
  { apply (Reachable_step _ (DeploymentChanged (Some AWS_Native)) _ R4);
      [reflexivity|vm_compute; reflexivity]. }
  assert (R6 : Reachable (setUseCaseId "" (setAnswers ∅ readyState))).
  { apply (Reachable_step _ (PackToggled "security" "p1" ["9"; "10"]) _ R5);
      [reflexivity|vm_compute; reflexivity]. }
  apply (Reachable_step _ (UseCaseChanged "chatbot") _ R6);
    [reflexivity|vm_compute; reflexivity].
Qed.

Lemma twoPackState_Reachable : Reachable twoPackState.
Proof.
  apply (Reachable_step _ (PackToggled "safety" "p2" ["0.9"; "1.0"]) _ readyState_Reachable);
    [reflexivity|vm_compute; reflexivity].
Qed.

Lemma viewingState_Reachable : Reachable viewingState.
Proof.
  apply (Reachable_step initialState
           (ViewerOpened "Standard" (Some "https://example.org/standard")));
    [apply Reachable_init|reflexivity|vm_compute; reflexivity].
Qed.

(** X4: in every state of a session no segment is selected without an
    industry and no use case without a segment, so that readiness comes
    down to the use case, the deployment environment, a model and a
    pack. *)
Theorem reachable_selection_is_nested (st : State) :
  Reachable st ->
  (industryId st = "" -> segmentId st = "" /\ useCaseId st = "")
  /\ (segmentId st = "" -> useCaseId st = "")
  /\ (canCreate st = true <->
      useCaseId st <> "" /\ deploymentEnvironment st <> None
      /\ (1 <= length (selectedLlms st))%nat
      /\ (1 <= length (JsObject.values (selectedPacks st)))%nat).
Proof.
  intros [Hseg Huc _ _]%Reachable_invariant.
  split; [by auto|]. split; [done|].
  rewrite canCreate_iff. split; [tauto|].
  intros (Hu & ?). repeat split; tauto.
Qed.

Lemma reachable_selection_is_nested_witness :
  industryId readyState = "finance" /\ segmentId readyState = "retail"
  /\ useCaseId readyState = "chatbot"
  /\ (industryId readyState = "" -> segmentId readyState = "" /\ useCaseId readyState = "")
  /\ canCreate readyState = true.
Proof.
  destruct (reachable_selection_is_nested readyState readyState_Reachable)
    as (Hnested & _ & Hready).
  split; [reflexivity|]. split; [reflexivity|]. split; [reflexivity|].
  split; [exact Hnested|]. apply Hready.
  repeat split; first [ discriminate | simpl; lia ].
Defined.

(** X5: in every state of a session each selected pack is stored under
    the key made of its own domain and pack_id and no key occurs twice,
    so the packs sent on submission have distinct keys. *)
Theorem reachable_registry_keys (st : State) :
  Reachable st ->
  JsObject.wf (selectedPacks st)
  /\ (forall k sp, JsObject.get k (selectedPacks st) = Some sp -> k = keyOf sp)
  /\ NoDup (map keyOf (p_selected_packs (buildPayload st))).
Proof.
  intros [_ _ Hreg _]%Reachable_invariant. split; [apply Hreg|]. split.
  - intros k sp Hk. by apply Hreg, get_In.
  - by apply registryOk_values_NoDup.
Qed.

Lemma reachable_registry_keys_witness :
  map keyOf (p_selected_packs (buildPayload twoPackState)) = ["security/p1"; "safety/p2"]
  /\ NoDup (map keyOf (p_selected_packs (buildPayload twoPackState)))
  /\ (forall k, JsObject.get k (selectedPacks twoPackState)
                  = Some (mkSelectedPack "safety" "p2" "1.0") -> k = "safety/p2").
Proof.
  destruct (reachable_registry_keys twoPackState twoPackState_Reachable)
    as (_ & Hkeys & Hnodup).
  split; [reflexivity|]. split; [exact Hnodup|].
  intros k Hk. exact (Hkeys k _ Hk).
Defined.

(** X6: in every state of a session an open viewer has a non-empty
    address to show. *)
Theorem reachable_viewer_has_url (st : State) :
  Reachable st -> viewerOpen st = true -> viewerUrl st <> "".
Proof. intros [_ _ _ Hview]%Reachable_invariant. exact Hview. Qed.

Lemma reachable_viewer_has_url_witness : viewerUrl viewingState <> "".
Proof.
  apply (reachable_viewer_has_url viewingState viewingState_Reachable). reflexivity.
Defined.

(** *** More on sorting *)

Section SortStability.
Context {A : Type} (cmp : A -> A -> Z).

Local Abbreviation le := (fun a b : A => cmp a b <= 0).

(** [a] and [b] compare equal both ways. *)
Local Abbreviation tied := (fun a b : A => (cmp a b <=? 0) && (cmp b a <=? 0)).

Lemma insert_first x l : Forall (le x) l -> JsArray.insert cmp x l = x :: l.
Proof.
  destruct 1 as [|y l Hy _]; simpl; [done|].
  by destruct (Z.leb_spec (cmp x y) 0); [|lia].
Qed.

Lemma length_filter_insert (f : A -> bool) x l :
  length (List.filter f (JsArray.insert cmp x l)) = length (List.filter f (x :: l)).
Proof.
  induction l as [|y l IH]; simpl; [done|].
  destruct (cmp x y <=? 0); simpl; [done|].
  simpl in IH. destruct (f y), (f x); simpl in *; lia.
Qed.

Lemma length_filter_sort (f : A -> bool) l :
  length (List.filter f (JsArray.sort cmp l)) = length (List.filter f l).
Proof.
  induction l as [|x l IH]; simpl; [done|].
  rewrite length_filter_insert. simpl. destruct (f x); simpl; lia.
Qed.

Hypothesis cmp_trans : forall a b c, cmp a b <= 0 -> cmp b c <= 0 -> cmp a c <= 0.

Lemma filter_tied_insert a x l :
  List.filter (tied a) (JsArray.insert cmp x l)
  = List.filter (tied a) (x :: l).
Proof.
  induction l as [|y l IH]; simpl; [done|].
  destruct (Z.leb_spec (cmp x y) 0) as [Hxy|Hxy]; simpl; [done|].
  rewrite IH. simpl.
  destruct (tied a x) eqn:Hx, (tied a y) eqn:Hy; try done.
  apply andb_true_iff in Hx as [_ Hxa%Z.leb_le].
  apply andb_true_iff in Hy as [Hay%Z.leb_le _].
  pose proof (cmp_trans x a y Hxa Hay). lia.
Qed.

Lemma sort_stable a l :
  List.filter (tied a) (JsArray.sort cmp l) = List.filter (tied a) l.
Proof.
  induction l as [|x l IH]; simpl; [done|].
  rewrite filter_tied_insert. simpl. by rewrite IH.
Qed.

Lemma sort_sorted_id l : StronglySorted le l -> JsArray.sort cmp l = l.
Proof.
  induction 1 as [|x l Hl IH Hx]; simpl; [done|]. rewrite IH. by apply insert_first.
Qed.

Lemma filter_insert_sorted (f : A -> bool) x l :
  StronglySorted le l ->
  List.filter f (JsArray.insert cmp x l)
  = if f x then JsArray.insert cmp x (List.filter f l) else List.filter f l.
Proof.
  induction 1 as [|y l Hl IH Hy]; simpl; [by destruct (f x)|].
  destruct (Z.leb_spec (cmp x y) 0) as [Hxy|Hxy]; simpl.
  - destruct (f x) eqn:Hfx; [|done]. symmetry. apply insert_first.
    assert (Hall : Forall (le x) (y :: l)).
    { constructor; [done|]. eapply Forall_impl; [exact Hy|].
      intros z Hz. by apply (cmp_trans x y z). }
    apply Forall_forall. intros z Hz%list_elem_of_In.
    change (In z (List.filter f (y :: l))) in Hz. apply filter_In in Hz as [Hz _].
    rewrite Forall_forall in Hall. by apply Hall, list_elem_of_In.
  - rewrite IH. destruct (f x), (f y); simpl; try done.
    by destruct (Z.leb_spec (cmp x y) 0); [lia|].
Qed.

Hypothesis cmp_total : forall a b, cmp a b <= 0 \/ cmp b a <= 0.

Lemma filter_sort (f : A -> bool) l :
  List.filter f (JsArray.sort cmp l) = JsArray.sort cmp (List.filter f l).
Proof.
  induction l as [|x l IH]; simpl; [done|].
  rewrite filter_insert_sorted by by apply sort_StronglySorted.
  rewrite IH. by destruct (f x).
Qed.
End SortStability.

(** *** More on the pack list *)

Section PackList.
Variable localeCompare : string -> string -> Z.
Hypothesis collation : StrictCollation localeCompare.

Lemma packCompare_total a b :
  packCompare localeCompare a b <= 0 \/ packCompare localeCompare b a <= 0.
Proof. rewrite !packCompare_le by done. by apply packLe_total. Qed.

Lemma packCompare_trans a b c :
  packCompare localeCompare a b <= 0 -> packCompare localeCompare b c <= 0 ->
  packCompare localeCompare a c <= 0.
Proof. rewrite !packCompare_le by done. by apply packLe_trans. Qed.

Lemma packCompare_tied a b :
  (packCompare localeCompare a b <=? 0) && (packCompare localeCompare b a <=? 0)
  = bool_decide (sameRank a b).
Proof.
  apply eq_true_iff_eq.
  rewrite andb_true_iff, !Z.leb_le, bool_decide_eq_true, !packCompare_le by done.
  unfold packLe, sameRank. split.
  - intros [[Hab|(Hd & Hab)] [Hba|(Hd' & Hba)]].
    + by destruct (before_asym _ collation _ _ Hab).
    + rewrite Hd' in Hab. by destruct (before_irrefl _ collation _ Hab).
    + rewrite Hd in Hba. by destruct (before_irrefl _ collation _ Hba).
    + split; [done|].
      destruct Hab as [?|(Ho & Hab)], Hba as [?|(Ho' & Hba)]; try lia.
      split; [done|].
      destruct Hab as [Hab|?], Hba as [Hba|?]; try done.
      by destruct (before_asym _ collation _ _ Hab).
  - intros (Hd & Ho & Hn). split; right; (split; [done|]); right;
      (split; [done|]); by right.
Qed.
End PackList.

(** X9: sorting is stable: packs that agree on domain, order and display
    name appear in the pack list in the order the catalog has them. *)
Theorem packsForDisplay_stable (localeCompare : string -> string -> Z)
    (packs : list Pack) (a : Pack) :
  StrictCollation localeCompare ->
  List.filter (fun b => bool_decide (sameRank a b)) (packsForDisplay localeCompare packs)
  = List.filter (fun b => bool_decide (sameRank a b)) packs.
Proof.
  intros Hcoll. unfold packsForDisplay.
  rewrite <- !(filter_ext _ _ (packCompare_tied localeCompare Hcoll a)).
  apply sort_stable. intros x y z. by apply packCompare_trans.
Qed.

(** X10: sorting a pack list that is already in order gives it back, so
    sorting twice is sorting once. *)
Theorem packsForDisplay_idempotent (localeCompare : string -> string -> Z)
    (packs : list Pack) :
  StrictCollation localeCompare ->
  (StronglySorted (packLe localeCompare) packs ->
   packsForDisplay localeCompare packs = packs)
  /\ packsForDisplay localeCompare (packsForDisplay localeCompare packs)
     = packsForDisplay localeCompare packs.
Proof.
  intros Hcoll.
  assert (Hid : forall l, StronglySorted (packLe localeCompare) l ->
                          packsForDisplay localeCompare l = l).
  { intros l Hl. apply sort_sorted_id.
    induction Hl as [|p l Hl IH Hp]; constructor; [done|].
    eapply Forall_impl; [exact Hp|]. intros q. by apply packCompare_le. }
  split; [apply Hid|]. by apply Hid, packsForDisplay_StronglySorted.
Qed.

Lemma packsForDisplay_stable_witness :
  List.filter (fun b => bool_decide (sameRank packA b))
    (packsForDisplay JsString.defaultCompare [packA2; packB; packC; packA])
  = [packA2; packA].
Proof.
  rewrite (packsForDisplay_stable JsString.defaultCompare
             [packA2; packB; packC; packA] packA defaultCompare_collation).
  reflexivity.
Defined.

Lemma packsForDisplay_idempotent_witness :
  packsForDisplay JsString.defaultCompare [packC; packA; packB] = [packC; packA; packB].
Proof.
  apply (packsForDisplay_idempotent JsString.defaultCompare [packC; packA; packB]
           defaultCompare_collation).
Defined.

(** *** Domain counts and the domain filter *)

Lemma foldl_countPack counts l :
  let total := foldl countPack counts l in
  governance total
  = (governance counts
     + length (List.filter (fun p => bool_decide (pack_domain p = "governance")) l))%nat
  /\ safety total
     = (safety counts
        + length (List.filter (fun p => bool_decide (pack_domain p = "safety")) l))%nat
  /\ security total
     = (security counts
        + length (List.filter (fun p => bool_decide (pack_domain p = "security")) l))%nat.
Proof.
  revert counts. induction l as [|p l IH]; intros counts; simpl; [lia|].
  destruct (IH (countPack counts p)) as (Hg & Hsa & Hse).
  rewrite Hg, Hsa, Hse. unfold countPack.
  repeat case_decide; simpl; repeat case_bool_decide; simpl;
    first [ lia | congruence ].
Qed.

(** X11: the number on each domain button is the number of packs listed
    under that filter, which is the number of catalog packs of that
    domain; "All" counts every pack, and the three domain counts never
    add up to more. *)
Theorem packsByDomainCounts_match_filter (localeCompare : string -> string -> Z)
    (st : State) :
  let counts := packsByDomainCounts localeCompare (packs st) in
  let shown f := length (filteredPacksForDisplay localeCompare (setPackDomainFilter f st)) in
  governance counts = shown FilterGovernance
  /\ safety counts = shown FilterSafety
  /\ security counts = shown FilterSecurity
  /\ shown FilterAll = length (packs st)
  /\ governance counts
     = length (List.filter (fun p => bool_decide (pack_domain p = "governance")) (packs st))
  /\ safety counts
     = length (List.filter (fun p => bool_decide (pack_domain p = "safety")) (packs st))
  /\ security counts
     = length (List.filter (fun p => bool_decide (pack_domain p = "security")) (packs st))
  /\ (governance counts + safety counts + security counts <= length (packs st))%nat
  /\ (Forall (fun p => pack_domain p = "governance" \/ pack_domain p = "safety"
                       \/ pack_domain p = "security") (packs st) ->
      (governance counts + safety counts + security counts)%nat = length (packs st)).
Proof.
  intros counts shown.
  destruct (foldl_countPack (mkDomainCounts 0 0 0)
              (packsForDisplay localeCompare (packs st))) as (Hg & Hsa & Hse).
  fold (packsByDomainCounts localeCompare (packs st)) in Hg, Hsa, Hse.
  fold counts in Hg, Hsa, Hse. simpl in Hg, Hsa, Hse.
  assert (Hall : shown FilterAll = length (packs st)).
  { unfold shown, filteredPacksForDisplay. simpl.
    apply Permutation_length, sort_Permutation. }
  split; [done|]. split; [done|]. split; [done|]. split; [done|].
  unfold packsForDisplay in Hg, Hsa, Hse. rewrite length_filter_sort in Hg, Hsa, Hse.
  split; [done|]. split; [done|]. split; [done|]. rewrite Hg, Hsa, Hse. clear.
  induction (packs st) as [|p l IH]; simpl; [split; [lia|done]|].
  destruct IH as [IH1 IH2]. split.
  - repeat case_bool_decide; simpl; (lia || congruence).
  - intros [Hp Hl]%Forall_cons. specialize (IH2 Hl).
    repeat case_bool_decide; simpl; try lia; try congruence.
    destruct Hp as [?|[?|?]]; congruence.
Qed.

Lemma packsByDomainCounts_match_filter_witness :
  let st := setPacks [packB; packA; packC] initialState in
  let counts := packsByDomainCounts JsString.defaultCompare (packs st) in
  governance counts = 1%nat /\ safety counts = 2%nat /\ security counts = 0%nat
  /\ (governance counts + safety counts + security counts)%nat = length (packs st).
Proof.
  intros st counts.
  destruct (packsByDomainCounts_match_filter JsString.defaultCompare st)
    as (_ & _ & _ & _ & Hg & Hsa & Hse & _ & Hsum).
  fold counts in Hg, Hsa, Hse, Hsum.
  split; [exact Hg|]. split; [exact Hsa|]. split; [exact Hse|].
  apply Hsum. repeat constructor; simpl; tauto.
Defined.

(** X12: a domain filter lists exactly the packs of that domain, in the
    order of the full list; sorting and then filtering is the same as
    sorting the packs of that domain alone.  "All" lists the full
    list. *)
Theorem filteredPacksForDisplay_spec (localeCompare : string -> string -> Z)
    (st : State) (d : string) :
  StrictCollation localeCompare ->
  filterDomain (packDomainFilter st) = Some d ->
  let shown := filteredPacksForDisplay localeCompare st in
  Forall (fun p => pack_domain p = d) shown
  /\ (forall p, In p shown <-> In p (packs st) /\ pack_domain p = d)
  /\ sublist shown (packsForDisplay localeCompare (packs st))
  /\ StronglySorted (packLe localeCompare) shown
  /\ shown
     = packsForDisplay localeCompare
         (List.filter (fun p => bool_decide (pack_domain p = d)) (packs st)).
Proof.
  intros Hcoll Hd shown.
  assert (Heq : shown
     = packsForDisplay localeCompare
         (List.filter (fun p => bool_decide (pack_domain p = d)) (packs st))).
  { unfold shown, filteredPacksForDisplay, packsForDisplay. rewrite Hd.
    apply filter_sort.
    - intros x y z. by apply packCompare_trans.
    - intros x y. by apply packCompare_total. }
  assert (Hin : forall p, In p shown <-> In p (packs st) /\ pack_domain p = d).
  { intros p. unfold shown, filteredPacksForDisplay. rewrite Hd.
    rewrite filter_In, bool_decide_eq_true.
    split; intros [Hp ?]; (split; [|done]).
    - by apply (Permutation_in p (sort_Permutation (packCompare localeCompare) (packs st))).
    - by apply (Permutation_in p
                  (Permutation_sym
                     (sort_Permutation (packCompare localeCompare) (packs st)))). }
  split; [|split; [done|split; [|split; [|done]]]].
  - apply Forall_forall. intros p Hp%list_elem_of_In. by apply Hin.
  - unfold shown, filteredPacksForDisplay. rewrite Hd. apply filter_sublist.
  - rewrite Heq. by apply packsForDisplay_StronglySorted.
Qed.

Lemma filteredPacksForDisplay_spec_witness :
  filteredPacksForDisplay JsString.defaultCompare
    (setPackDomainFilter FilterSafety (setPacks [packB; packA; packC] initialState))
  = [packA; packB].
Proof.
  destruct (filteredPacksForDisplay_spec JsString.defaultCompare
              (setPackDomainFilter FilterSafety (setPacks [packB; packA; packC] initialState))
              "safety" defaultCompare_collation eq_refl) as (_ & _ & _ & _ & ->).
  reflexivity.
Defined.

(** *** More on [latestVersion] and on defaults *)

Lemma lex_le_antisym s t : lex_le s t -> lex_le t s -> s = t.
Proof.
  intros [->|Hst]; [done|]. intros [->|Hts]; [done|].
  destruct (lex_lt_irrefl s). by apply (lex_lt_trans s t s).
Qed.

Lemma lex_max_unique l m m' : lex_max l m -> lex_max l m' -> m = m'.
Proof. intros [Hm Hall] [Hm' Hall']. apply lex_le_antisym; auto. Qed.

(** X13: the version a pack is pinned to depends on which versions are
    offered, not on the order they are listed in, and adding a version
    to the list never lowers it. *)
Theorem latestVersion_order_independent (versions versions' : list string) :
  Permutation versions versions' ->
  latestVersion versions = latestVersion versions'
  /\ forall v, lex_le (latestVersion versions) (latestVersion (v :: versions')).
Proof.
  intros Hperm.
  assert (Heq : latestVersion versions = latestVersion versions').
  { destruct versions as [|v0 versions].
    - apply Permutation_nil in Hperm. by subst.
    - assert (Hne : versions' <> []).
      { intros ->. by apply Permutation_sym, Permutation_nil in Hperm. }
      apply (lex_max_unique (v0 :: versions)); [by apply latestVersion_lex_max|].
      destruct (latestVersion_lex_max versions' Hne) as [Hin Hall]. split.
      + by apply (Permutation_in _ (Permutation_sym Hperm)).
      + intros v Hv. apply Hall. by apply (Permutation_in _ Hperm). }
  split; [done|]. intros v. rewrite Heq.
  destruct versions' as [|v0 versions'].
  - destruct v; [by left|right; constructor].
  - destruct (latestVersion_lex_max (v0 :: versions')) as [Hin _]; [done|].
    destruct (latestVersion_lex_max (v :: v0 :: versions')) as [_ Hall]; [done|].
    apply Hall. by right.
Qed.

Lemma latestVersion_order_independent_witness :
  latestVersion ["1.0"; "2.0"; "1.5"] = latestVersion ["2.0"; "1.5"; "1.0"].
Proof.
  apply (latestVersion_order_independent ["1.0"; "2.0"; "1.5"] ["2.0"; "1.5"; "1.0"]).
  apply perm_trans with ["2.0"; "1.0"; "1.5"]; [apply perm_swap|].
  apply perm_skip, perm_swap.
Defined.



(** *** More on the model filter *)

Lemma lowerChar_idem c : JsString.lowerChar (JsString.lowerChar c) = JsString.lowerChar c.
Proof. by destruct c as [[] [] [] [] [] [] [] []]. Qed.

Lemma isWhiteSpace_lowerChar c :
  JsString.isWhiteSpace (JsString.lowerChar c) = JsString.isWhiteSpace c.
Proof. by destruct c as [[] [] [] [] [] [] [] []]. Qed.

Lemma toLowerCase_idem s :
  JsString.toLowerCase (JsString.toLowerCase s) = JsString.toLowerCase s.
Proof. induction s as [|c s IH]; simpl; [done|]. by rewrite lowerChar_idem, IH. Qed.

Lemma toLowerCase_trimStart s :
  JsString.toLowerCase (JsString.trimStart s) = JsString.trimStart (JsString.toLowerCase s).
Proof.
  induction s as [|c s IH]; simpl; [done|].
  rewrite isWhiteSpace_lowerChar. by destruct (JsString.isWhiteSpace c).
Qed.

Lemma toLowerCase_trimEnd s :
  JsString.toLowerCase (JsString.trimEnd s) = JsString.trimEnd (JsString.toLowerCase s).
Proof.
  induction s as [|c s IH]; simpl; [done|].
  rewrite <- IH, isWhiteSpace_lowerChar.
  destruct (JsString.trimEnd s); simpl; [|done].
  by destruct (JsString.isWhiteSpace c).
Qed.

Lemma toLowerCase_trim s :
  JsString.toLowerCase (JsString.trim s) = JsString.trim (JsString.toLowerCase s).
Proof. unfold JsString.trim. by rewrite toLowerCase_trimEnd, toLowerCase_trimStart. Qed.

Lemma append_assoc (s t u : string) : (s +:+ t) +:+ u = s +:+ t +:+ u.
Proof. induction s as [|c s IH]; [done|]. by rewrite !append_cons, IH. Qed.

Lemma isBlank_append s t : isBlank (s +:+ t) = isBlank s && isBlank t.
Proof.
  induction s as [|c s IH]; [done|]. rewrite append_cons. simpl.
  by rewrite IH, andb_assoc.
Qed.

Lemma trimEnd_blank s : isBlank s = true -> JsString.trimEnd s = "".
Proof.
  induction s as [|c s IH]; simpl; [done|].
  intros [Hc Hs]%andb_true_iff. by rewrite IH, Hc.
Qed.

Lemma trimStart_app_blank pre s :
  isBlank pre = true -> JsString.trimStart (pre +:+ s) = JsString.trimStart s.
Proof.
  induction pre as [|c pre IH]; [done|]. rewrite append_cons. simpl.
  intros [Hc Hpre]%andb_true_iff. rewrite Hc. by apply IH.
Qed.

Lemma trimEnd_app_blank s post :
  isBlank post = true -> JsString.trimEnd (s +:+ post) = JsString.trimEnd s.
Proof.
  intros Hpost. induction s as [|c s IH].
  - by rewrite append_empty, trimEnd_blank.
  - rewrite append_cons. simpl. by rewrite IH.
Qed.

Lemma trim_app_blank s post :
  isBlank post = true -> JsString.trim (s +:+ post) = JsString.trim s.
Proof.
  intros Hpost. unfold JsString.trim. induction s as [|c s IH].
  - rewrite append_empty, trimStart_blank by done. done.
  - rewrite append_cons. simpl. destruct (JsString.isWhiteSpace c); [done|].
    rewrite <- append_cons. by apply trimEnd_app_blank.
Qed.

Lemma trim_padded pre s post :
  isBlank pre = true -> isBlank post = true ->
  JsString.trim (pre +:+ s +:+ post) = JsString.trim s.
Proof.
  intros Hpre Hpost. rewrite <- append_assoc, trim_app_blank by done.
  unfold JsString.trim. by rewrite trimStart_app_blank.
Qed.

Lemma filteredLlms_filter LLM_CATALOG llmQuery :
  filteredLlms LLM_CATALOG llmQuery
  = List.filter (llmMatches (normalizedQuery llmQuery)) LLM_CATALOG.
Proof.
  unfold filteredLlms, normalizedQuery, JsString.truthy.
  case_decide as Hq; simpl; [|done].
  symmetry. apply filter_all_true. intros llm. unfold llmMatches.
  by rewrite Hq, includes_empty.
Qed.

(** X15: the filter does not tell queries apart that differ only in the
    case of their letters or in white space around them. *)
Theorem filteredLlms_ignores_case_and_padding (LLM_CATALOG : list LlmModel)
    (llmQuery : string) :
  (forall other, JsString.toLowerCase other = JsString.toLowerCase llmQuery ->
     filteredLlms LLM_CATALOG other = filteredLlms LLM_CATALOG llmQuery)
  /\ (forall pre post, isBlank pre = true -> isBlank post = true ->
        filteredLlms LLM_CATALOG (pre +:+ llmQuery +:+ post)
        = filteredLlms LLM_CATALOG llmQuery).
Proof.
  split.
  - intros other Hother. rewrite !filteredLlms_filter. unfold normalizedQuery.
    by rewrite !toLowerCase_trim, Hother.
  - intros pre post Hpre Hpost. rewrite !filteredLlms_filter. unfold normalizedQuery.
    by rewrite trim_padded.
Qed.

Lemma filteredLlms_ignores_case_and_padding_witness :
  filteredLlms sampleModels "OPENAI" = filteredLlms sampleModels "openai"
  /\ filteredLlms sampleModels "  openai " = filteredLlms sampleModels "openai".
Proof.
  split.
  - by apply (filteredLlms_ignores_case_and_padding sampleModels "openai").
  - by apply (proj2 (filteredLlms_ignores_case_and_padding sampleModels "openai") "  " " ").
Defined.

Lemma isSubstringOf_trans q r s : isSubstringOf q r -> isSubstringOf r s -> isSubstringOf q s.
Proof.
  intros (pre & post & ->) (pre' & post' & ->).
  exists (pre' +:+ pre), (post +:+ post'). by rewrite !append_assoc.
Qed.

Lemma filter_sublist_impl {A} (f g : A -> bool) l :
  (forall x, f x = true -> g x = true) ->
  sublist (List.filter f l) (List.filter g l).
Proof.
  intros Hfg. induction l as [|x l IH]; simpl; [done|].
  destruct (f x) eqn:Hf.
  - rewrite (Hfg x Hf). by constructor.
  - destruct (g x); [by constructor|done].
Qed.

(** X16: a query that contains another one finds no model the other
    does not find: the longer query's result is a sub-list of the
    shorter one's. *)
Theorem filteredLlms_narrows (LLM_CATALOG : list LlmModel) (shorter longer : string) :
  isSubstringOf (normalizedQuery shorter) (normalizedQuery longer) ->
  sublist (filteredLlms LLM_CATALOG longer) (filteredLlms LLM_CATALOG shorter).
Proof.
  intros Hsub. rewrite !filteredLlms_filter. apply filter_sublist_impl.
  intros llm. rewrite !llmMatches_spec. unfold matchesQuery.
  intros [?|[?|[?|?]]]; eauto 6 using isSubstringOf_trans.
Qed.

Lemma filteredLlms_narrows_witness :
  sublist (filteredLlms sampleModels "Open AI") (filteredLlms sampleModels "  ai").
Proof.
  apply (filteredLlms_narrows sampleModels "  ai" "Open AI").
  by exists "open ", "".
Defined.

(** *** Submission, loading and the viewer *)

(** X17: a submission the button allows sends a payload with the three
    ids, a deployment environment, at least one model and at least one
    pack, the answers as they are and an empty description as null;
    when the call succeeds the page goes to the new project and the
    state only loses its error. *)
Theorem onCreate_success (createProject : Payload -> JsError + CreateResponse)
    (st : State) (res : CreateResponse) :
  canCreate st = true ->
  createProject (buildPayload st) = inr res ->
  let p := buildPayload st in
  onCreate createProject st = (Some (setErr None st), Some ("/projects/" +:+ project_id res))
  /\ p_industry_id p <> "" /\ p_segment_id p <> "" /\ p_use_case_id p <> ""
  /\ p_deployment_environment p <> None
  /\ p_selected_llms p <> [] /\ p_selected_packs p <> []
  /\ length (p_selected_packs p) = length (JsObject.keys (selectedPacks st))
  /\ p_scope_answers p = answers st
  /\ (p_description p = None <-> description st = "")
  /\ (forall text, p_description p = Some text -> text = description st).
Proof.
  intros Hready Hres p. apply canCreate_iff in Hready as (Hi & Hs & Hu & Hd & Hl & Hp).
  split.
  { unfold onCreate. rewrite Hres. by rewrite dispatch_no_effect. }
  subst p. simpl. repeat split; try done.
  - intros Hnil. rewrite Hnil in Hl. simpl in Hl. lia.
  - intros Hnil. rewrite Hnil in Hp. simpl in Hp. lia.
  - unfold JsObject.values, JsObject.keys. by rewrite !length_map.
  - unfold JsString.truthy. by case_decide.
  - unfold JsString.truthy. by case_decide.
  - intros text. unfold JsString.truthy. case_decide; [done|]. by intros [= <-].
Qed.

Lemma onCreate_success_witness :
  onCreate accepting readyState = (Some (setErr None readyState), Some "/projects/42").
Proof.
  by apply (onCreate_success accepting readyState (mkCreateResponse "42")).
Defined.

(** X18: loading stores both catalogs, an absent list as the empty
    one, or, when a fetch fails, only the error text; either way the
    selection, the answers, the models and the packs chosen so far stay
    as they are and no effect runs. *)
Theorem onLoad_spec (st : State) :
  (forall i p,
     onLoad (inr (i, p)) st
     = Some (setPacks (default [] p) (setIndustries (default [] i) st)))
  /\ onLoad (inr (None, None)) st = Some (setPacks [] (setIndustries [] st))
  /\ (forall e, onLoad (inl e) st = Some (setErr (Some (errorText e)) st))
  /\ (forall result st',
        onLoad result st = Some st' ->
        industryId st' = industryId st /\ segmentId st' = segmentId st
        /\ useCaseId st' = useCaseId st /\ answers st' = answers st
        /\ selectedLlms st' = selectedLlms st /\ selectedPacks st' = selectedPacks st).
Proof.
  assert (Hok : forall i p,
     onLoad (inr (i, p)) st
     = Some (setPacks (default [] p) (setIndustries (default [] i) st))).
  { intros i p. unfold onLoad. by rewrite dispatch_no_effect. }
  assert (Hfail : forall e, onLoad (inl e) st = Some (setErr (Some (errorText e)) st)).
  { intros e. unfold onLoad. by rewrite dispatch_no_effect. }
  split; [done|]. split; [apply Hok|]. split; [done|].
  intros [e|[i p]] st'.
  - rewrite Hfail. by intros [= <-].
  - rewrite Hok. by intros [= <-].
Qed.

Lemma onLoad_spec_witness :
  industryId (setErr (Some "offline") sampleState) = industryId sampleState
  /\ answers (setErr (Some "offline") sampleState) = answers sampleState.
Proof.
  destruct (proj2 (proj2 (proj2 (onLoad_spec sampleState)))
              (inl (mkJsError (Some "offline") "Error: offline"))
              (setErr (Some "offline") sampleState) eq_refl)
    as (H1 & _ & _ & H4 & _).
  by split.
Defined.

(** X19: opening the viewer without an address, or with an empty one,
    does nothing; with an address it shows that title and address, and
    closing it afterwards only hides it.  Neither changes whether the
    page is ready. *)
Theorem viewer_open_close (title : string) (st : State) :
  openStandardViewer title None st = Some st
  /\ openStandardViewer title (Some "") st = Some st
  /\ (forall u, u <> "" ->
        exists opened closed,
          openStandardViewer title (Some u) st = Some opened
          /\ viewerOpen opened = true /\ viewerTitle opened = title
          /\ viewerUrl opened = u
          /\ canCreate opened = canCreate st
          /\ closeStandardViewer opened = Some closed
          /\ viewerOpen closed = false /\ viewerTitle closed = title
          /\ viewerUrl closed = u
          /\ canCreate closed = canCreate st).
Proof.
  split; [done|]. split; [done|]. intros u Hu.
  unfold openStandardViewer, closeStandardViewer.
  rewrite (proj2 (truthy_true u) Hu), dispatch_no_effect by done.
  eexists _, _. split; [reflexivity|]. rewrite dispatch_no_effect by done.
  by repeat split.
Qed.

Lemma viewer_open_close_witness :
  exists opened closed,
    openStandardViewer "Standard" (Some "https://example.org/standard") initialState
    = Some opened
    /\ viewerUrl opened = "https://example.org/standard"
    /\ closeStandardViewer opened = Some closed
    /\ viewerOpen closed = false.
Proof.
  destruct (proj2 (proj2 (viewer_open_close "Standard" initialState))
              "https://example.org/standard")
    as (opened & closed & H1 & _ & _ & H4 & _ & H6 & H7 & _); [discriminate|].
  by exists opened, closed.
Defined.
